(** * Map colouring as a constraint satisfaction problem

    A shallow embedding of [submission.py]: the consistency predicate
    [adjacent_c_constraint], the [CSP] class with [possible_values], the
    minimum-remaining-values heuristic [mrv], the recursive search
    [backtrack] / [bts] and the result validator [check].

    Python objects that the program mutates are modelled as components of an
    explicit store that every function threads:
    - the assignment is one insertion-ordered [dict] shared by all frames;
    - [csp.variables] and [csp.unassigned] are bound to the same list object
      by [CSP.__init__] (line 182), so the store has one component for both;
    - [csp.domains] and the local [sh_list] of [backtrack] are the same list
      object (line 102), shuffled in place on every invocation;
    - the conflict table is the [defaultdict(list)] built at line 197:
      indexing an absent key yields the empty list and records the key;
    - [random] is an explicit sequence of raw draws. *)

From stdpp Require Import gmap strings list fin_maps.

Open Scope string_scope.
Open Scope list_scope.
Open Scope nat_scope.

(** ** Python containers *)

(** An insertion-ordered [dict] from variables to values. *)
Definition dict := list (string * string).

Fixpoint dict_get (k : string) (d : dict) : option string :=
  match d with
  | [] => None
  | (k', v) :: d' => if decide (k' = k) then Some v else dict_get k d'
  end.

(** [k in d] *)
Definition dict_contains (k : string) (d : dict) : bool :=
  match dict_get k d with Some _ => true | None => false end.

(** [d[k] = v]: an existing key keeps its position, a new key goes last. *)
Fixpoint dict_setitem (k v : string) (d : dict) : dict :=
  match d with
  | [] => [(k, v)]
  | (k', v') :: d' =>
      if decide (k' = k) then (k, v) :: d' else (k', v') :: dict_setitem k v d'
  end.

(** [del d[k]] *)
Fixpoint dict_delitem (k : string) (d : dict) : dict :=
  match d with
  | [] => []
  | (k', v') :: d' =>
      if decide (k' = k) then d' else (k', v') :: dict_delitem k d'
  end.

Definition dict_keys (d : dict) : list string := d.*1.

(** The conflict table: a [defaultdict(list)] from a variable to the list of
    its conflicting variables. *)
Abbreviation table := (gmap string (list string)).

(** [nd[k]] on a [defaultdict(list)]: the stored list, or a new empty list
    that is also stored under [k]. *)
Definition dd_getitem (nd : table) (k : string) : list string * table :=
  match nd !! k with
  | Some l => (l, nd)
  | None => ([], <[k := []]> nd)
  end.

(** [x in l] for a list. *)
Definition list_contains (x : string) (l : list string) : bool :=
  bool_decide (x ∈ l).

(** [l.remove(x)]: drops the first occurrence; [None] is [ValueError]. *)
Fixpoint list_remove (x : string) (l : list string) : option (list string) :=
  match l with
  | [] => None
  | y :: l' =>
      if decide (y = x) then Some l'
      else match list_remove x l' with
           | Some r => Some (y :: r)
           | None => None
           end
  end.

(** ** The random module *)

(** [randbelow(n)] consumes one raw draw; an exhausted sequence answers 0. *)
Definition randbelow (n : nat) (rs : list nat) : nat * list nat :=
  match rs with
  | [] => (0, [])
  | r :: rs' => (r mod n, rs')
  end.

(** [x[i], x[j] = x[j], x[i]] *)
Definition swap (i j : nat) (x : list string) : list string :=
  match x !! i, x !! j with
  | Some a, Some b => <[j := a]> (<[i := b]> x)
  | _, _ => x
  end.

(** [random.shuffle(x)]: for [i] from [len(x) - 1] down to 1, exchange
    [x[i]] with [x[randbelow(i + 1)]]. *)
Fixpoint shuffle_from (i : nat) (x : list string) (rs : list nat)
  : list string * list nat :=
  match i with
  | 0 => (x, rs)
  | S i' =>
      let '(j, rs') := randbelow (S i) rs in
      shuffle_from i' (swap i j x) rs'
  end.

Definition shuffle (x : list string) (rs : list nat) : list string * list nat :=
  shuffle_from (length x - 1) x rs.

(** ** The consistency predicate *)

(** The loop of [adjacent_c_constraint] over [neighbors_dict[count1]]. *)
Fixpoint no_neighbor_holds (neighbors : list string) (color : string)
    (assignment : dict) : bool :=
  match neighbors with
  | [] => true
  | country :: rest =>
      if dict_contains country assignment then
        if bool_decide (dict_get country assignment = Some color) then false
        else no_neighbor_holds rest color assignment
      else no_neighbor_holds rest color assignment
  end.

Definition adjacent_c_constraint (count1 color : string)
    (neighbors_dict : table) (assignment : dict) : bool * table :=
  let '(neighbors, neighbors_dict) := dd_getitem neighbors_dict count1 in
  (no_neighbor_holds neighbors color assignment, neighbors_dict).

(** ** The CSP class *)

Definition constraint_fn : Type :=
  string → string → table → dict → bool * table.

(** [variables] is the list object that [__init__] binds to both
    [self.variables] and [self.unassigned]. *)
Record CSP := mkCSP {
  variables : list string;
  domains : list string;
  neighbors_dict : table;
  constraints : constraint_fn
}.

Definition CSP_init (variables domains : list string) (neighbors_dict : table)
    (constraints : constraint_fn) : CSP :=
  mkCSP variables domains neighbors_dict constraints.

(** [self.unassigned = variables] *)
Definition unassigned (csp : CSP) : list string := variables csp.

Definition set_unassigned (l : list string) (csp : CSP) : CSP :=
  mkCSP l (domains csp) (neighbors_dict csp) (constraints csp).

Definition set_domains (l : list string) (csp : CSP) : CSP :=
  mkCSP (variables csp) l (neighbors_dict csp) (constraints csp).

Definition set_neighbors_dict (nd : table) (csp : CSP) : CSP :=
  mkCSP (variables csp) (domains csp) nd (constraints csp).

(** The loop of [possible_values] over [self.domains]; [possible] is the
    deep copy being pruned. *)
Fixpoint prune (self : CSP) (country : string) (assignment : dict)
    (values : list string) (possible : list string) : list string * CSP :=
  match values with
  | [] => (possible, self)
  | value :: rest =>
      let '(ok, nd) :=
        constraints self country value (neighbors_dict self) assignment in
      let self := set_neighbors_dict nd self in
      if ok then prune self country assignment rest possible
      else prune self country assignment rest
             (default possible (list_remove value possible))
  end.

Definition possible_values (self : CSP) (country : string) (assignment : dict)
  : list string * CSP :=
  let possible := domains self in
  prune self country assignment (domains self) possible.

(** ** Minimum remaining values *)

(** The loop of [mrv] over [csp.unassigned], with its two locals. *)
Fixpoint mrv_loop (csp : CSP) (assignment : dict) (values : list string)
    (country : string) (minimum : nat) : string * CSP :=
  match values with
  | [] => (country, csp)
  | value :: rest =>
      let '(possible, csp) := possible_values csp value assignment in
      if (length possible <? minimum)%nat then
        let '(possible, csp) := possible_values csp value assignment in
        mrv_loop csp assignment rest value (length possible)
      else mrv_loop csp assignment rest country minimum
  end.

(** [None] is the [IndexError] of [csp.unassigned[0]]. *)
Definition mrv (csp : CSP) (assignment : dict) : option (string * CSP) :=
  match unassigned csp with
  | [] => None
  | country :: _ =>
      let '(possible, csp) := possible_values csp country assignment in
      Some (mrv_loop csp assignment (unassigned csp) country (length possible))
  end.

(** ** The search *)

(** What a call can produce: the assignment, the string ['Failure'], or an
    exception that propagates. *)
Inductive exn :=
  | IndexError
  | ValueError
  | KeyError (key : string)
  | AssignmentError (country : string)
  | CountryNotFoundError (country : string)
  | ColorNotFoundError (color : string)
  | ConstraintViolationError (country1 country2 : string).

Inductive result :=
  | Solution (assignment : dict)
  | Failure
  | Raised (e : exn).

(** The objects a search works on.  [w_module_neighbors] is the module-level
    name [neighbors_dict] read at line 107: [None] when it is bound to the
    same object as [csp.neighbors_dict] (as the main block does), [Some g]
    when it is bound to another table [g]. *)
Record world := mkWorld {
  w_assignment : dict;
  w_csp : CSP;
  w_module_neighbors : option table;
  w_random : list nat
}.

Definition set_assignment (a : dict) (w : world) : world :=
  mkWorld a (w_csp w) (w_module_neighbors w) (w_random w).

Definition set_csp (csp : CSP) (w : world) : world :=
  mkWorld (w_assignment w) csp (w_module_neighbors w) (w_random w).

(** Reading and writing through the module-level name. *)
Definition module_table (w : world) : table :=
  match w_module_neighbors w with
  | Some g => g
  | None => neighbors_dict (w_csp w)
  end.

Definition set_module_table (g : table) (w : world) : world :=
  match w_module_neighbors w with
  | Some _ => mkWorld (w_assignment w) (w_csp w) (Some g) (w_random w)
  | None => set_csp (set_neighbors_dict g (w_csp w)) w
  end.

(** [sh_list = csp.domains; random.shuffle(sh_list)] *)
Definition shuffle_domains (w : world) : world :=
  let '(l, rs) := shuffle (domains (w_csp w)) (w_random w) in
  mkWorld (w_assignment w) (set_domains l (w_csp w)) (w_module_neighbors w) rs.

(** The forward-checking loop (lines 112-115) over the neighbours of the
    variable just assigned: [false] when it leaves through
    [return 'Failure']. *)
Fixpoint forward_checking (neighbors : list string) (assignment : dict)
    (csp : CSP) : bool * CSP :=
  match neighbors with
  | [] => (true, csp)
  | neighbor :: rest =>
      let '(possible, csp) := possible_values csp neighbor assignment in
      if (length possible =? 0)%nat then (false, csp)
      else forward_checking rest assignment csp
  end.

(** How one pass through the body of [for color in sh_list] ends. *)
Inductive flow :=
  | Return (r : result)
  | Next.

(** Lines 123-125. *)
Definition undo (country : string) (w : world) : world :=
  if dict_contains country (w_assignment w) then
    let w := set_assignment (dict_delitem country (w_assignment w)) w in
    set_csp (set_unassigned (unassigned (w_csp w) ++ [country]) (w_csp w)) w
  else w.

Section color_loop.

(** The recursive call [backtrack(assignment, csp)] of line 118. *)
Variable rec : world → option (result * world).
Variable country : string.

(** The body of the loop, lines 107-125. *)
Definition try_color (color : string) (w : world) : option (flow * world) :=
  let '(ok, g) :=
    constraints (w_csp w) country color (module_table w) (w_assignment w) in
  let w := set_module_table g w in
  if ok then
    let w := set_assignment (dict_setitem country color (w_assignment w)) w in
    match list_remove country (unassigned (w_csp w)) with
    | None => Some (Return (Raised ValueError), w)
    | Some l =>
        let w := set_csp (set_unassigned l (w_csp w)) w in
        let '(neighbors, nd) :=
          dd_getitem (neighbors_dict (w_csp w)) country in
        let w := set_csp (set_neighbors_dict nd (w_csp w)) w in
        let '(alive, csp) :=
          forward_checking neighbors (w_assignment w) (w_csp w) in
        let w := set_csp csp w in
        if alive then
          match rec w with
          | None => None
          | Some (Failure, w) => Some (Next, undo country w)
          | Some (r, w) => Some (Return r, w)
          end
        else Some (Return Failure, w)
    end
  else Some (Next, undo country w).

(** [for color in sh_list]: the list iterator reads [sh_list[i]] from the
    list object as it is at that moment.  [n] bounds the passes still to
    run; [None] means the bound, or the fuel of a recursive call, ran
    out. *)
Fixpoint for_color (n i : nat) (w : world) : option (result * world) :=
  match domains (w_csp w) !! i with
  | None => Some (Failure, w)
  | Some color =>
      match n with
      | 0 => None
      | S n' =>
          match try_color color w with
          | None => None
          | Some (Return r, w) => Some (r, w)
          | Some (Next, w) => for_color n' (S i) w
          end
      end
  end.

End color_loop.

(** [backtrack(assignment, csp)]; [fuel] bounds the depth of the recursion
    and [None] means it ran out. *)
Fixpoint backtrack (fuel : nat) (w : world) : option (result * world) :=
  match fuel with
  | 0 => None
  | S fuel' =>
      if (length (unassigned (w_csp w)) =? 0)%nat then
        Some (Solution (w_assignment w), w)
      else
        match mrv (w_csp w) (w_assignment w) with
        | None => Some (Raised IndexError, w)
        | Some (country, csp) =>
            let w := shuffle_domains (set_csp csp w) in
            for_color (backtrack fuel') country
              (length (domains (w_csp w))) 0 w
        end
  end.

(** [bts(csp)], run with the module-level table [g] and the draws [rs]. *)
Definition bts (fuel : nat) (csp : CSP) (g : option table) (rs : list nat)
  : option (result * world) :=
  backtrack fuel (mkWorld [] csp g rs).

(** ** The validator *)

Inductive outcome :=
  | Returned
  | Raise (e : exn).

(** The first loop of [check], lines 132-134. *)
Fixpoint check_complete (result : dict) (countries : list string) : outcome :=
  match countries with
  | [] => Returned
  | country :: rest =>
      if dict_contains country result then check_complete result rest
      else Raise (AssignmentError country)
  end.

(** The innermost loop, lines 144-146; [result[country]] raises [KeyError]
    on an absent key. *)
Fixpoint check_neighbors (result : dict) (key value : string)
    (neighbors : list string) : outcome :=
  match neighbors with
  | [] => Returned
  | country :: rest =>
      match dict_get country result with
      | None => Raise (KeyError country)
      | Some value' =>
          if bool_decide (value' = value)
          then Raise (ConstraintViolationError key country)
          else check_neighbors result key value rest
      end
  end.

(** The second loop, lines 136-146, over [result.items()]. *)
Fixpoint check_items (result : dict) (countries colors : list string)
    (items : list (string * string)) (neighbors : table) : outcome * table :=
  match items with
  | [] => (Returned, neighbors)
  | (key, value) :: rest =>
      if negb (list_contains key countries)
      then (Raise (CountryNotFoundError key), neighbors)
      else if negb (list_contains value colors)
      then (Raise (ColorNotFoundError value), neighbors)
      else
        let '(l, neighbors) := dd_getitem neighbors key in
        match check_neighbors result key value l with
        | Returned => check_items result countries colors rest neighbors
        | Raise e => (Raise e, neighbors)
        end
  end.

(** [check(result, countries, colors, neighbors)].  Only the table can
    change: the other arguments are read with [in], [items()] and
    indexing. *)
Definition check (result : dict) (countries colors : list string)
    (neighbors : table) : outcome * table :=
  match check_complete result countries with
  | Raise e => (Raise e, neighbors)
  | Returned => check_items result countries colors result neighbors
  end.

(** ** Properties of stores *)

(** Two tables with the same conflict list for every key. *)
Definition same_lists (nd nd' : table) : Prop := ∀ k, nd' !!! k = nd !!! k.

(** The CSP object across calls that only index its table. *)
Record csp_quiet (csp csp' : CSP) : Prop := mk_quiet {
  quiet_variables : variables csp' = variables csp;
  quiet_domains : domains csp' = domains csp;
  quiet_constraints : constraints csp' = constraints csp;
  quiet_lists : same_lists (neighbors_dict csp) (neighbors_dict csp')
}.

(** [legal csp country a v]: no conflicting variable of [country] that is
    present in [a] holds [v]. *)
Definition legal (csp : CSP) (country : string) (a : dict) (v : string) : bool :=
  no_neighbor_holds (neighbors_dict csp !!! country) v a.

(** The number of legal values of [country]. *)
Definition count (csp : CSP) (a : dict) (country : string) : nat :=
  length (List.filter (legal csp country a) (domains csp)).

(** The instance was built with [adjacent_c_constraint]. *)
Definition cadj (w : world) : Prop :=
  constraints (w_csp w) = adjacent_c_constraint.

(** A transition that only indexes tables or shuffles the domain list. *)
Record quiet (w w' : world) : Prop := mk_wquiet {
  q_assignment : w_assignment w' = w_assignment w;
  q_unassigned : unassigned (w_csp w') = unassigned (w_csp w);
  q_domains : domains (w_csp w') ≡ₚ domains (w_csp w);
  q_constraints : constraints (w_csp w') = constraints (w_csp w);
  q_table : same_lists (neighbors_dict (w_csp w)) (neighbors_dict (w_csp w'));
  q_module : same_lists (module_table w) (module_table w');
  q_alias : w_module_neighbors w' = None ↔ w_module_neighbors w = None
}.

(** Lines 108-109 once [remove] has produced [l]. *)
Definition commit (country color : string) (l : list string) (w : world) : world :=
  let w := set_assignment (dict_setitem country color (w_assignment w)) w in
  set_csp (set_unassigned l (w_csp w)) w.

(** The moves of the store during a search. *)
Inductive step : world → world → Prop :=
  | step_quiet w w' : quiet w w' → step w w'
  | step_commit w country color l :
      color ∈ domains (w_csp w) →
      no_neighbor_holds (module_table w !!! country) color (w_assignment w)
      = true →
      list_remove country (unassigned (w_csp w)) = Some l →
      step w (commit country color l w)
  | step_undo w country :
      dict_contains country (w_assignment w) = true →
      step w (undo country w).

Definition reach : world → world → Prop := rtc step.

(** What a returned value says about the store it is returned in. *)
Definition final (r : result) (w : world) : Prop :=
  ∀ a, r = Solution a → a = w_assignment w ∧ unassigned (w_csp w) = [].

(** Unless an exception propagates, a call moves the store by steps. *)
Definition post (w : world) (r : result) (w' : world) : Prop :=
  match r with
  | Raised _ => True
  | _ => reach w w' ∧ final r w'
  end.

(** The test of line 107, which reads the module-level table. *)
Definition loop_test (country color : string) (w : world) : bool :=
  no_neighbor_holds (module_table w !!! country) color (w_assignment w).

(** Stores in which the unassigned list and the assignment are well formed
    and apart. *)
Record good (w : world) : Prop := mk_good {
  good_cadj : cadj w;
  good_keys : NoDup (dict_keys (w_assignment w));
  good_unassigned : NoDup (unassigned (w_csp w));
  good_disjoint : ∀ x, x ∈ unassigned (w_csp w) → x ∉ dict_keys (w_assignment w)
}.

(** The invariant of a search over variables [V], values [D] and conflict
    lists [G]. *)
Record inv (V D : list string) (G : table) (w : world) : Prop := mk_inv {
  inv_keys : NoDup (dict_keys (w_assignment w));
  inv_cover : ∀ x, x ∈ V →
    x ∈ unassigned (w_csp w) ∨ x ∈ dict_keys (w_assignment w);
  inv_known : ∀ x,
    x ∈ unassigned (w_csp w) ∨ x ∈ dict_keys (w_assignment w) → x ∈ V;
  inv_values : ∀ k v, dict_get k (w_assignment w) = Some v → v ∈ D;
  inv_domains : domains (w_csp w) ≡ₚ D;
  inv_module : same_lists G (module_table w);
  inv_consistent : ∀ x y v, x ≠ y →
    dict_get x (w_assignment w) = Some v → y ∈ G !!! x →
    dict_get y (w_assignment w) ≠ Some v
}.

(** [a'] keeps every entry of [a]. *)
Definition extends (a a' : dict) : Prop :=
  ∀ k v, dict_get k a = Some v → dict_get k a' = Some v.

(** A call that returns without an exception. *)
Record returns (w : world) (r : result) (w' : world) : Prop := mk_returns {
  ret_noexn : ∀ e, r ≠ Raised e;
  ret_extends : extends (w_assignment w) (w_assignment w');
  ret_length : length (unassigned (w_csp w')) ≤ length (unassigned (w_csp w))
}.

(** A complete valid colouring of an instance: every variable is present,
    every value is in the domain, and no two variables of which one lists
    the other hold the same value. *)
Record valid_coloring (V D : list string) (G : table) (a : dict) : Prop :=
  mk_valid {
    valid_present : ∀ x, x ∈ V → is_Some (dict_get x a);
    valid_values : ∀ k c, dict_get k a = Some c → c ∈ D;
    valid_conflicts : ∀ x y c, x ∈ V → y ∈ V → x ≠ y → y ∈ G !!! x →
      dict_get x a = Some c → dict_get y a ≠ Some c
  }.

(** The conflict lists of the variables mention each other. *)
Definition symmetric_on (V : list string) (G : table) : Prop :=
  Forall (λ x, Forall (λ y, y ∈ G !!! x → x ∈ G !!! y) V) V.

(** The store [bts] starts from. *)
Definition start (csp : CSP) (g : option table) (rs : list nat) : world :=
  mkWorld [] csp g rs.

(** ** Properties of validator inputs *)

(** [n] is in [result] with a value other than [value]. *)
Definition differs (result : dict) (value n : string) : Prop :=
  is_Some (dict_get n result) ∧ dict_get n result ≠ Some value.

(** An entry that passes the three tests of the second loop. *)
Definition clean (result : dict) (countries colors : list string) (nd : table)
    (e : string * string) : Prop :=
  e.1 ∈ countries ∧ e.2 ∈ colors ∧ Forall (differs result e.2) (nd !!! e.1).

(** Every variable has an entry. *)
Definition complete (result : dict) (countries : list string) : Prop :=
  Forall (λ x, x ∈ dict_keys result) countries.

(** The validator with its checks in the order the specification lists
    them: first completeness, then every key and value known, then the
    conflicts. *)
Fixpoint check_known (countries colors : list string)
    (items : list (string * string)) : outcome :=
  match items with
  | [] => Returned
  | (key, value) :: rest =>
      if negb (list_contains key countries)
      then Raise (CountryNotFoundError key)
      else if negb (list_contains value colors)
      then Raise (ColorNotFoundError value)
      else check_known countries colors rest
  end.

Fixpoint check_conflicts (result : dict) (items : list (string * string))
    (neighbors : table) : outcome :=
  match items with
  | [] => Returned
  | (key, value) :: rest =>
      match check_neighbors result key value (neighbors !!! key) with
      | Returned => check_conflicts result rest neighbors
      | Raise e => Raise e
      end
  end.

Definition check_by_phases (result : dict) (countries colors : list string)
    (neighbors : table) : outcome :=
  match check_complete result countries with
  | Raise e => Raise e
  | Returned =>
      match check_known countries colors result with
      | Raise e => Raise e
      | Returned => check_conflicts result result neighbors
      end
  end.

(** ** Sample instances *)

(** A run of the program: the instance is built with
    [adjacent_c_constraint] and the module-level table is the instance's
    own, as in the main block. *)
Definition run (fuel : nat) (variables domains : list string)
    (nd : list (string * list string)) (rs : list nat)
  : option (result * world) :=
  bts fuel (CSP_init variables domains (list_to_map nd) adjacent_c_constraint)
    None rs.

(** What is observed of a run: the returned value, the assignment, the
    instance's variables list and its domain list. *)
Definition observe (o : option (result * world))
  : option (result * dict * list string * list string) :=
  match o with
  | Some (r, w) =>
      Some (r, w_assignment w, variables (w_csp w), domains (w_csp w))
  | None => None
  end.

Definition solution_of (o : option (result * world)) : dict :=
  match o with
  | Some (Solution a, _) => a
  | _ => []
  end.

Definition world_of (o : option (result * world)) : world :=
  match o with
  | Some (_, w) => w
  | None => mkWorld [] (mkCSP [] [] ∅ adjacent_c_constraint) None []
  end.

(** Three mutually conflicting variables. *)
Definition triangle : list (string * list string) :=
  [("A", ["B"; "C"]); ("B", ["A"; "C"]); ("C", ["A"; "B"])].

(** A path A - B - C. *)
Definition path : list (string * list string) :=
  [("A", ["B"]); ("B", ["A"; "C"]); ("C", ["B"])].

(** Five variables: V and W conflict with each other and with P and Q, and
    X conflicts with P and Q.  Colourable with three values exactly when P
    and Q share one. *)
Definition kite : list (string * list string) :=
  [("X", ["Q"; "P"]); ("Q", ["X"; "V"; "W"]); ("P", ["X"; "V"; "W"]);
   ("V", ["W"; "P"; "Q"]); ("W", ["V"; "P"; "Q"])].

(** Every sequence of draws whose entries are below the given bounds, entry
    by entry. *)
Fixpoint all_draws (bounds : list nat) : list (list nat) :=
  match bounds with
  | [] => [[]]
  | b :: rest => r ← seq 0 b; cons r <$> all_draws rest
  end.

Definition succeeds (o : option (result * world)) : bool :=
  match o with
  | Some (Solution _, _) => true
  | _ => false
  end.

(** ** Further definitions *)

(** [possible_values] with the [ValueError] of [possible.remove(value)]
    kept: [None] when the value is not in [possible]. *)
Fixpoint prune_checked (self : CSP) (country : string) (assignment : dict)
    (values : list string) (possible : list string)
  : option (list string * CSP) :=
  match values with
  | [] => Some (possible, self)
  | value :: rest =>
      let '(ok, nd) :=
        constraints self country value (neighbors_dict self) assignment in
      let self := set_neighbors_dict nd self in
      if ok then prune_checked self country assignment rest possible
      else match list_remove value possible with
           | None => None
           | Some possible =>
               prune_checked self country assignment rest possible
           end
  end.

Definition possible_values_checked (self : CSP) (country : string)
    (assignment : dict) : option (list string * CSP) :=
  prune_checked self country assignment (domains self) (domains self).

(** Every listed conflict of a variable is a variable. *)
Definition closed_on (V : list string) (G : table) : Prop :=
  Forall (λ x, Forall (λ y, y ∈ V) (G !!! x)) V.

(** No variable lists itself. *)
Definition irreflexive_on (V : list string) (G : table) : Prop :=
  Forall (λ x, x ∉ G !!! x) V.

(** ** The program *)

(** Lines 31-35. *)
Definition countries : list string :=
  ["Argentina"; "Bolivia"; "Brazil"; "Chile"; "Colombia"; "Ecuador";
   "Falkland Islands"; "Guyana"; "Paraguay"; "Peru"; "Suriname"; "Uruguay";
   "Venezuela"].

Definition colors : list string := ["blue"; "green"; "red"; "yellow"].

(** The table the main block fills, lines 197-213. *)
Definition south_america : table :=
  list_to_map
    [("Argentina", ["Bolivia"; "Brazil"; "Chile"; "Paraguay"; "Uruguay"]);
     ("Bolivia", ["Argentina"; "Brazil"; "Chile"; "Paraguay"; "Peru"]);
     ("Brazil", ["Argentina"; "Bolivia"; "Colombia"; "Guyana"; "Paraguay";
                 "Peru"; "Suriname"; "Uruguay"; "Venezuela"]);
     ("Chile", ["Argentina"; "Bolivia"; "Peru"]);
     ("Colombia", ["Brazil"; "Ecuador"; "Peru"; "Venezuela"]);
     ("Ecuador", ["Colombia"; "Peru"]);
     ("Falkland Islands", []);
     ("Guyana", ["Brazil"; "Suriname"; "Venezuela"]);
     ("Paraguay", ["Argentina"; "Bolivia"; "Brazil"]);
     ("Peru", ["Bolivia"; "Brazil"; "Chile"; "Colombia"; "Ecuador"]);
     ("Suriname", ["Brazil"; "Guyana"]);
     ("Uruguay", ["Argentina"; "Brazil"]);
     ("Venezuela", ["Brazil"; "Colombia"; "Guyana"])].

(** The comprehension [[colormap[c] for c in countries]] of
    [plot_choropleth], line 155; [inl] is the [KeyError] of an absent
    country.  The call of the plotting library is not modelled: its
    argument stands for it. *)
Fixpoint color_discrete_sequence (colormap : dict) (cs : list string)
  : exn + list string :=
  match cs with
  | [] => inr []
  | c :: rest =>
      match dict_get c colormap with
      | None => inl (KeyError c)
      | Some v =>
          match color_discrete_sequence colormap rest with
          | inl e => inl e
          | inr l => inr (v :: l)
          end
      end
  end.

Definition plot_choropleth (colormap : dict) : exn + list string :=
  color_discrete_sequence colormap countries.

(** How a run of the main block ends. *)
Inductive ending :=
  | Plotted (colormap : dict) (sequence : list string)
  | Printed (text : string)
  | Uncaught (e : exn).

(** The main block, lines 194-228.  [counts] is a deep copy of [countries],
    so the search empties the copy; [colors] and the table are handed to the
    instance as they are, so [check] sees them as the search left them. *)
Definition main (fuel : nat) (rs : list nat) : option ending :=
  let counts := countries in
  let csp := CSP_init counts colors south_america adjacent_c_constraint in
  match bts fuel csp None rs with
  | None => None
  | Some (Failure, _) => Some (Printed "No solution found!")
  | Some (Raised e, _) => Some (Uncaught e)
  | Some (Solution result, w) =>
      match (check result countries (domains (w_csp w))
               (neighbors_dict (w_csp w))).1 with
      | Raise e => Some (Uncaught e)
      | Returned =>
          match plot_choropleth result with
          | inl e => Some (Uncaught e)
          | inr sequence => Some (Plotted result sequence)
          end
      end
  end.

(** Closed decidable goals are settled by evaluation. *)
Ltac by_compute := apply (bool_decide_unpack _); vm_compute; exact I.

(** * Containers *)

Lemma dict_contains_true k d : dict_contains k d = true ↔ is_Some (dict_get k d).
Proof.
  unfold dict_contains. destruct (dict_get k d); split; intros H; eauto.
  - done.
  - by destruct H.
Qed.

Lemma dict_contains_false k d : dict_contains k d = false ↔ dict_get k d = None.
Proof. unfold dict_contains. by destruct (dict_get k d). Qed.

Lemma dict_get_None k d : dict_get k d = None ↔ k ∉ dict_keys d.
Proof.
  unfold dict_keys. induction d as [|[k' v] d IH]; simpl.
  - split; [intros _; apply not_elem_of_nil | done].
  - rewrite not_elem_of_cons. destruct (decide (k' = k)) as [->|Hne].
    + split; [done | intros [? _]; done].
    + rewrite IH. split; [intros ?; split; [congruence | done] | intros [_ ?]; done].
Qed.

Lemma dict_get_Some_elem k v d : dict_get k d = Some v → (k, v) ∈ d.
Proof.
  induction d as [|[k' v'] d IH]; simpl; [done|].
  destruct (decide (k' = k)) as [->|Hne].
  - intros [= ->]. left.
  - intros H. right. auto.
Qed.

Lemma dict_elem_get k v d : NoDup (dict_keys d) → (k, v) ∈ d → dict_get k d = Some v.
Proof.
  unfold dict_keys. induction d as [|[k' v'] d IH]; simpl; intros Hnd Hin.
  - by apply elem_of_nil in Hin.
  - apply NoDup_cons in Hnd as [Hk Hnd]. apply elem_of_cons in Hin as [[= -> ->]|Hin].
    + by rewrite decide_True.
    + destruct (decide (k' = k)) as [->|Hne]; [|auto].
      exfalso. apply Hk. apply list_elem_of_fmap. by exists (k, v).
Qed.

Lemma dict_get_setitem k v k' d :
  dict_get k' (dict_setitem k v d) = if decide (k = k') then Some v else dict_get k' d.
Proof.
  induction d as [|[k0 v0] d IH]; simpl.
  - destruct (decide (k = k')); done.
  - destruct (decide (k0 = k)) as [->|Hne]; simpl.
    + destruct (decide (k = k')); done.
    + destruct (decide (k0 = k')) as [->|Hne'].
      * by rewrite decide_False.
      * done.
Qed.

Lemma dict_keys_setitem_fresh k v d :
  dict_get k d = None → dict_setitem k v d = (d ++ [(k, v)])%list.
Proof.
  induction d as [|[k0 v0] d IH]; simpl; [done|].
  destruct (decide (k0 = k)); [done|]. intros H. by rewrite IH.
Qed.

Lemma dict_keys_get x d : x ∈ dict_keys d ↔ is_Some (dict_get x d).
Proof.
  rewrite <- not_eq_None_Some, dict_get_None.
  split; [auto | apply dec_stable].
Qed.

Lemma dict_keys_setitem k v d x :
  x ∈ dict_keys (dict_setitem k v d) ↔ x = k ∨ x ∈ dict_keys d.
Proof.
  rewrite !dict_keys_get, dict_get_setitem.
  destruct (decide (k = x)) as [->|Hne].
  - split; [intros _; by left | intros _; eauto].
  - split; [by right | intros [->|H]; done].
Qed.

Lemma dict_setitem_NoDup k v d :
  NoDup (dict_keys d) → NoDup (dict_keys (dict_setitem k v d)).
Proof.
  unfold dict_keys. induction d as [|[k0 v0] d IH]; simpl; intros Hnd.
  - apply NoDup_singleton.
  - apply NoDup_cons in Hnd as [Hk Hnd]. destruct (decide (k0 = k)) as [->|Hne]; simpl.
    + by apply NoDup_cons.
    + apply NoDup_cons. split; [|auto].
      intros Hin. apply (dict_keys_setitem k v d k0) in Hin as [?|?]; done.
Qed.

Lemma dict_keys_delitem_sub k d x :
  x ∈ dict_keys (dict_delitem k d) → x ∈ dict_keys d.
Proof.
  unfold dict_keys. induction d as [|[k0 v0] d IH]; simpl; [done|].
  destruct (decide (k0 = k)); simpl.
  - intros ?. by right.
  - rewrite !elem_of_cons. intros [->|H]; [by left | right; by apply IH].
Qed.

Lemma dict_delitem_NoDup k d :
  NoDup (dict_keys d) → NoDup (dict_keys (dict_delitem k d)).
Proof.
  unfold dict_keys. induction d as [|[k0 v0] d IH]; simpl; intros Hnd; [done|].
  apply NoDup_cons in Hnd as [Hk Hnd]. destruct (decide (k0 = k)); simpl; [done|].
  apply NoDup_cons. split; [|auto]. intros Hin. by apply dict_keys_delitem_sub in Hin.
Qed.

Lemma dict_get_delitem k k' d :
  NoDup (dict_keys d) →
  dict_get k' (dict_delitem k d) = if decide (k = k') then None else dict_get k' d.
Proof.
  unfold dict_keys. induction d as [|[k0 v0] d IH]; simpl; intros Hnd.
  - by destruct (decide (k = k')).
  - apply NoDup_cons in Hnd as [Hk Hnd]. destruct (decide (k0 = k)) as [->|Hne]; simpl.
    + destruct (decide (k = k')) as [->|]; [|done]. by apply dict_get_None.
    + rewrite IH by done. destruct (decide (k0 = k')) as [->|]; [by rewrite decide_False|done].
Qed.

Lemma list_remove_Some x l : x ∈ l → is_Some (list_remove x l).
Proof.
  induction l as [|y l IH]; simpl; intros Hin; [by apply elem_of_nil in Hin|].
  destruct (decide (y = x)); [eauto|].
  apply elem_of_cons in Hin as [->|Hin]; [done|].
  destruct (IH Hin) as [r ->]. eauto.
Qed.

Lemma list_remove_perm x l r : list_remove x l = Some r → l ≡ₚ x :: r.
Proof.
  revert r. induction l as [|y l IH]; simpl; intros r; [done|].
  destruct (decide (y = x)) as [->|]; [by intros [= ->]|].
  destruct (list_remove x l) as [r'|]; [|done]. intros [= <-].
  rewrite (IH r' eq_refl). apply Permutation_swap.
Qed.

(** * The table *)

Lemma dd_getitem_fst nd k : (dd_getitem nd k).1 = nd !!! k.
Proof. unfold dd_getitem. rewrite lookup_total_alt. by destruct (nd !! k). Qed.

Lemma dd_getitem_same nd k : same_lists nd (dd_getitem nd k).2.
Proof.
  intros k'. unfold dd_getitem. destruct (nd !! k) eqn:E; simpl; [done|].
  rewrite !lookup_total_alt. destruct (decide (k = k')) as [->|].
  - by rewrite lookup_insert_eq, E.
  - by rewrite lookup_insert_ne.
Qed.

Lemma dd_getitem_present nd k : is_Some (nd !! k) → (dd_getitem nd k).2 = nd.
Proof. intros [l E]. unfold dd_getitem. by rewrite E. Qed.

Lemma same_lists_refl nd : same_lists nd nd.
Proof. done. Qed.

Lemma same_lists_trans a b c : same_lists a b → same_lists b c → same_lists a c.
Proof. intros H1 H2 k. by rewrite H2, H1. Qed.

(** * Shuffling *)

Lemma swap_perm i j x : swap i j x ≡ₚ x.
Proof.
  unfold swap. destruct (x !! i) as [a|] eqn:Ei; [|done].
  destruct (x !! j) as [b|] eqn:Ej; [|done].
  destruct (decide (i = j)) as [->|Hne].
  - assert (a = b) as -> by congruence.
    rewrite list_insert_insert_eq, list_insert_id; done.
  - symmetry. apply Permutation_inj. split.
    + by rewrite !length_insert.
    + exists (λ n, if decide (n = i) then j else if decide (n = j) then i else n). split.
      * intros n m. repeat case_decide; congruence.
      * intros n. repeat case_decide; subst.
        -- rewrite list_lookup_insert_eq; [done|]. rewrite length_insert. by eapply lookup_lt_Some.
        -- rewrite list_lookup_insert_ne by done. rewrite list_lookup_insert_eq; [done|]. by eapply lookup_lt_Some.
        -- by rewrite !list_lookup_insert_ne.
Qed.

Lemma shuffle_from_perm i x rs : (shuffle_from i x rs).1 ≡ₚ x.
Proof.
  revert x rs. induction i as [|i IH]; intros x rs; simpl; [done|].
  destruct (randbelow (S (S i)) rs) as [j rs']. rewrite IH. apply swap_perm.
Qed.

Lemma shuffle_perm x rs : (shuffle x rs).1 ≡ₚ x.
Proof. apply shuffle_from_perm. Qed.


(** * The consistency predicate *)

Lemma no_neighbor_holds_true l v a :
  no_neighbor_holds l v a = true ↔ ∀ n, n ∈ l → dict_get n a ≠ Some v.
Proof.
  induction l as [|n l IH]; simpl.
  - split; [intros _ n Hn; by apply elem_of_nil in Hn | done].
  - unfold dict_contains. destruct (dict_get n a) as [v'|] eqn:E.
    + case_bool_decide as Hv.
      * split; [done|]. intros H. exfalso. apply (H n); [left | congruence].
      * rewrite IH. split.
        -- intros H n' [->|Hin]%elem_of_cons; [by rewrite E|auto].
        -- intros H n' Hin. apply H. by right.
    + rewrite IH. split.
      * intros H n' [->|Hin]%elem_of_cons; [by rewrite E|auto].
      * intros H n' Hin. apply H. by right.
Qed.

Lemma adjacent_c_constraint_eq c v nd a :
  adjacent_c_constraint c v nd a
  = (no_neighbor_holds (nd !!! c) v a, (dd_getitem nd c).2).
Proof.
  unfold adjacent_c_constraint. rewrite <- dd_getitem_fst.
  by destruct (dd_getitem nd c).
Qed.

(** * The CSP object between calls that only index its table *)

Lemma csp_quiet_refl csp : csp_quiet csp csp.
Proof. by split. Qed.

Lemma csp_quiet_trans a b c : csp_quiet a b → csp_quiet b c → csp_quiet a c.
Proof.
  intros [] []. split; try congruence; by eapply same_lists_trans.
Qed.

Lemma legal_quiet csp csp' c a v : csp_quiet csp csp' → legal csp' c a v = legal csp c a v.
Proof. intros []. unfold legal. by rewrite quiet_lists0. Qed.

Lemma count_quiet csp csp' a c : csp_quiet csp csp' → count csp' a c = count csp a c.
Proof.
  intros Hq. unfold count. rewrite (quiet_domains _ _ Hq). f_equal.
  apply List.filter_ext. intros v. by apply legal_quiet.
Qed.

Lemma list_remove_middle x (kept rest : list string) :
  x ∉ kept → list_remove x (kept ++ x :: rest) = Some (kept ++ rest).
Proof.
  induction kept as [|y kept IH]; simpl; intros Hx.
  - by rewrite decide_True.
  - apply not_elem_of_cons in Hx as [Hne Hx].
    rewrite decide_False by done. by rewrite IH.
Qed.

Lemma prune_spec self c a values kept :
  constraints self = adjacent_c_constraint →
  (∀ x, x ∈ kept → legal self c a x = true) →
  ∃ self', prune self c a values (kept ++ values)
           = (kept ++ List.filter (legal self c a) values, self')
           ∧ csp_quiet self self'.
Proof.
  intros Hc. revert self kept Hc.
  induction values as [|v values IH]; intros self kept Hc Hkept; simpl.
  - exists self. split; [done | apply csp_quiet_refl].
  - rewrite Hc, adjacent_c_constraint_eq. fold (legal self c a v).
    set (self1 := set_neighbors_dict _ self).
    assert (csp_quiet self self1) as Hq.
    { split; try done. apply dd_getitem_same. }
    assert (∀ x, legal self1 c a x = legal self c a x) as Hl.
    { intros x. by apply legal_quiet. }
    destruct (legal self c a v) eqn:Ev.
    + destruct (IH self1 (kept ++ [v])) as (self' & E & Hq').
      { done. }
      { intros x [Hx| ->%list_elem_of_singleton]%elem_of_app; rewrite Hl; auto. }
      rewrite <- !(assoc_L (++)) in E. simpl in E.
      exists self'. split; [|by eapply csp_quiet_trans].
      rewrite E. f_equal. f_equal. f_equal. apply List.filter_ext. intros; apply Hl.
    + rewrite list_remove_middle; simpl.
      * destruct (IH self1 kept) as (self' & E & Hq').
        { done. }
        { intros x Hx. rewrite Hl. auto. }
        exists self'. split; [|by eapply csp_quiet_trans].
        rewrite E. f_equal. f_equal. apply List.filter_ext. intros; apply Hl.
      * intros Hin. apply Hkept in Hin. congruence.
Qed.

Lemma possible_values_spec self c a :
  constraints self = adjacent_c_constraint →
  ∃ self', possible_values self c a
           = (List.filter (legal self c a) (domains self), self')
           ∧ csp_quiet self self'.
Proof.
  intros Hc. unfold possible_values.
  destruct (prune_spec self c a (domains self) [] Hc) as (self' & E & Hq).
  { intros x Hx. by apply elem_of_nil in Hx. }
  simpl in E. eauto.
Qed.

(** * Minimum remaining values *)

Lemma mrv_loop_spec csp a values country minimum c csp' :
  constraints csp = adjacent_c_constraint →
  mrv_loop csp a values country minimum = (c, csp') →
  csp_quiet csp csp' ∧
  ((c = country ∧ ∀ u, u ∈ values → minimum ≤ count csp a u) ∨
   (∃ pre post, values = pre ++ c :: post ∧ count csp a c < minimum ∧
      (∀ u, u ∈ pre → count csp a c < count csp a u) ∧
      (∀ u, u ∈ post → count csp a c ≤ count csp a u))).
Proof.
  revert csp country minimum.
  induction values as [|v values IH]; intros csp country minimum Hc; simpl.
  - intros [= <- <-]. split; [apply csp_quiet_refl|]. left. split; [done|].
    intros u Hu. by apply elem_of_nil in Hu.
  - destruct (possible_values_spec csp v a Hc) as (csp1 & -> & Hq1).
    fold (count csp a v).
    assert (constraints csp1 = adjacent_c_constraint) as Hc1.
    { by rewrite (quiet_constraints _ _ Hq1). }
    assert (∀ u, count csp1 a u = count csp a u) as E1.
    { intros u. by apply count_quiet. }
    destruct (Nat.ltb_spec (count csp a v) minimum) as [Hlt|Hge].
    + destruct (possible_values_spec csp1 v a Hc1) as (csp2 & -> & Hq2).
      fold (count csp1 a v). rewrite E1.
      assert (csp_quiet csp csp2) as Hq by (by eapply csp_quiet_trans).
      assert (constraints csp2 = adjacent_c_constraint) as Hc2.
      { by rewrite (quiet_constraints _ _ Hq). }
      assert (∀ u, count csp2 a u = count csp a u) as E2.
      { intros u. by apply count_quiet. }
      intros E. apply IH in E as [Hq' H]; [|done].
      split; [by eapply csp_quiet_trans|].
      right. destruct H as [[-> H]|(pre & post & -> & H1 & H2 & H4)].
      * exists [], values. simpl. split; [done|]. split; [done|].
        split; [intros u Hu; by apply elem_of_nil in Hu|].
        intros u Hu. rewrite <- (E2 u). auto.
      * exists (v :: pre), post. simpl. split; [done|].
        rewrite E2 in H1. split; [lia|].
        split; [intros u [->|Hu]%elem_of_cons; [done|]|].
        { specialize (H2 u Hu). rewrite !E2 in H2. done. }
        intros u Hu. specialize (H4 u Hu). by rewrite !E2 in H4.
    + intros E. apply IH in E as [Hq' H]; [|done].
      split; [by eapply csp_quiet_trans|].
      destruct H as [[-> H]|(pre & post & -> & H1 & H2 & H4)].
      * left. split; [done|]. intros u [->|Hu]%elem_of_cons; [done|].
        rewrite <- (E1 u). auto.
      * right. exists (v :: pre), post. simpl. split; [done|].
        rewrite E1 in H1. split; [done|].
        split; [intros u [->|Hu]%elem_of_cons; [lia|]|].
        { specialize (H2 u Hu). by rewrite !E1 in H2. }
        intros u Hu. specialize (H4 u Hu). by rewrite !E1 in H4.
Qed.


Lemma mrv_spec csp a :
  constraints csp = adjacent_c_constraint →
  unassigned csp ≠ [] →
  ∃ c csp' pre post,
    mrv csp a = Some (c, csp') ∧ csp_quiet csp csp' ∧
    unassigned csp = pre ++ c :: post ∧
    (∀ u, u ∈ pre → count csp a c < count csp a u) ∧
    (∀ u, u ∈ post → count csp a c ≤ count csp a u).
Proof.
  intros Hc Hne. unfold mrv.
  destruct (unassigned csp) as [|first tl] eqn:Eu; [done|].
  destruct (possible_values_spec csp first a Hc) as (csp1 & -> & Hq1).
  fold (count csp a first).
  assert (constraints csp1 = adjacent_c_constraint) as Hc1.
  { by rewrite (quiet_constraints _ _ Hq1). }
  assert (∀ u, count csp1 a u = count csp a u) as E1.
  { intros u. by apply count_quiet. }
  assert (unassigned csp1 = first :: tl) as Eu1.
  { unfold unassigned in *. by rewrite (quiet_variables _ _ Hq1). }
  rewrite Eu1.
  destruct (mrv_loop csp1 a (first :: tl) first (count csp a first))
    as [c csp'] eqn:E.
  apply mrv_loop_spec in E as [Hq H]; [|done].
  exists c, csp'.
  destruct H as [[-> H]|(pre & post & Hv & H1 & H2 & H3)].
  - exists [], tl. split; [done|]. split; [by eapply csp_quiet_trans|].
    split; [done|]. split; [intros u Hu; by apply elem_of_nil in Hu|].
    intros u Hu. rewrite <- (E1 u). apply H. by right.
  - exists pre, post. split; [done|]. split; [by eapply csp_quiet_trans|].
    split; [done|]. split.
    + intros u Hu. specialize (H2 u Hu). by rewrite !E1 in H2.
    + intros u Hu. specialize (H3 u Hu). by rewrite !E1 in H3.
Qed.

Lemma forward_checking_spec l a csp :
  constraints csp = adjacent_c_constraint →
  ∃ csp', forward_checking l a csp
          = (bool_decide (Forall (λ n, count csp a n ≠ 0) l), csp')
          ∧ csp_quiet csp csp'.
Proof.
  revert csp. induction l as [|n l IH]; intros csp Hc; simpl.
  - exists csp. split; [done | apply csp_quiet_refl].
  - destruct (possible_values_spec csp n a Hc) as (csp1 & -> & Hq1).
    fold (count csp a n).
    destruct (Nat.eqb_spec (count csp a n) 0) as [Hz|Hnz].
    + exists csp1. split; [|done]. f_equal. symmetry.
      apply bool_decide_eq_false. by intros [? _]%Forall_cons.
    + destruct (IH csp1) as (csp' & -> & Hq').
      { by rewrite (quiet_constraints _ _ Hq1). }
      exists csp'. split; [|by eapply csp_quiet_trans]. f_equal.
      apply bool_decide_ext. rewrite Forall_cons.
      assert (Forall (λ n0, count csp1 a n0 ≠ 0) l ↔ Forall (λ n0, count csp a n0 ≠ 0) l) as ->.
      { apply Forall_proper; [|done]. intros u. by rewrite (count_quiet _ _ _ _ Hq1). }
      tauto.
Qed.

(** * Worlds *)

Lemma quiet_refl w : quiet w w.
Proof. by split. Qed.

Lemma quiet_trans w1 w2 w3 : quiet w1 w2 → quiet w2 w3 → quiet w1 w3.
Proof.
  intros [] []. split; try congruence.
  all: try (by eapply same_lists_trans); by etrans.
Qed.

Lemma quiet_set_csp w csp' :
  csp_quiet (w_csp w) csp' → quiet w (set_csp csp' w).
Proof.
  intros [Hv Hd Hc Hl]. split; simpl; try done.
  - by rewrite Hd.
  - unfold module_table. simpl. by destruct (w_module_neighbors w).
Qed.

Lemma quiet_set_module_table w g :
  same_lists (module_table w) g → quiet w (set_module_table g w).
Proof.
  intros Hg. unfold set_module_table, module_table in *.
  destruct (w_module_neighbors w) eqn:E; split; simpl; try done.
  all: unfold module_table; simpl; rewrite ?E; try done.
Qed.

Lemma module_table_set w g : module_table (set_module_table g w) = g.
Proof.
  unfold set_module_table, module_table.
  destruct (w_module_neighbors w) eqn:E; simpl; [done|by rewrite E].
Qed.

Lemma quiet_shuffle_domains w : quiet w (shuffle_domains w).
Proof.
  unfold shuffle_domains.
  pose proof (shuffle_perm (domains (w_csp w)) (w_random w)) as Hp.
  destruct (shuffle _ _) as [l rs]. simpl in Hp.
  split; simpl; try done.
Qed.

Lemma reach_step w w' : step w w' → reach w w'.
Proof. apply rtc_once. Qed.

Lemma reach_quiet w w' : quiet w w' → reach w w'.
Proof. intros. by apply reach_step, step_quiet. Qed.

Lemma reach_trans w1 w2 w3 : reach w1 w2 → reach w2 w3 → reach w1 w3.
Proof. apply rtc_trans. Qed.

Lemma step_cadj w w' : step w w' → cadj w → cadj w'.
Proof.
  unfold cadj. intros [w1 w2 Hq|w1 c v l _ _ _|w1 c Hc] H; simpl.
  - by rewrite (q_constraints _ _ Hq).
  - done.
  - unfold undo. rewrite Hc. done.
Qed.

Lemma reach_cadj w w' : reach w w' → cadj w → cadj w'.
Proof. induction 1; eauto using step_cadj. Qed.

Lemma post_reach w1 w2 r w3 : reach w1 w2 → post w2 r w3 → post w1 r w3.
Proof.
  intros H. destruct r; simpl; [|  |done].
  - intros [? ?]. split; [by eapply reach_trans|done].
  - intros [? ?]. split; [by eapply reach_trans|done].
Qed.

Lemma reach_undo w country : reach w (undo country w).
Proof.
  destruct (dict_contains country (w_assignment w)) eqn:Ed.
  - by apply reach_step, step_undo.
  - unfold undo. rewrite Ed. apply rtc_refl.
Qed.

(** * One pass of the colour loop, case by case *)

Section pass.

Variable rec : world → option (result * world).
Variable country : string.

Lemma try_color_skip color w :
  cadj w → loop_test country color w = false →
  ∃ w0, try_color rec country color w = Some (Next, undo country w0)
        ∧ quiet w w0.
Proof.
  intros Hc Hok. unfold try_color. rewrite Hc, adjacent_c_constraint_eq.
  unfold loop_test in Hok. rewrite Hok.
  eexists. split; [done|]. apply quiet_set_module_table, dd_getitem_same.
Qed.

Lemma try_color_commit color w l :
  cadj w → loop_test country color w = true →
  list_remove country (unassigned (w_csp w)) = Some l →
  ∃ w1 w3,
    quiet w w1 ∧ quiet (commit country color l w1) w3 ∧
    try_color rec country color w =
      (if bool_decide (Forall (λ n, count (w_csp w3) (w_assignment w3) n ≠ 0)
                         (neighbors_dict (w_csp w) !!! country))
       then match rec w3 with
            | None => None
            | Some (Failure, w4) => Some (Next, undo country w4)
            | Some (r, w4) => Some (Return r, w4)
            end
       else Some (Return Failure, w3)).
Proof.
  intros Hc Hok Hl. unfold try_color. rewrite Hc, adjacent_c_constraint_eq.
  unfold loop_test in Hok. rewrite Hok.
  set (g := (dd_getitem (module_table w) country).2).
  assert (quiet w (set_module_table g w)) as Hq0.
  { apply quiet_set_module_table, dd_getitem_same. }
  set (w0 := set_module_table g w) in *.
  assert (list_remove country (unassigned (w_csp (set_assignment
    (dict_setitem country color (w_assignment w0)) w0))) = Some l) as ->.
  { simpl. by rewrite (q_unassigned _ _ Hq0). }
  fold (commit country color l w0).
  set (w1 := commit country color l w0) in *.
  assert (cadj w1) as Hc1.
  { unfold cadj. simpl. by rewrite (q_constraints _ _ Hq0). }
  rewrite (surjective_pairing (dd_getitem (neighbors_dict (w_csp w1)) country)).
  rewrite dd_getitem_fst.
  set (nd := (dd_getitem (neighbors_dict (w_csp w1)) country).2).
  set (w2 := set_csp (set_neighbors_dict nd (w_csp w1)) w1) in *.
  assert (quiet w1 w2) as Hq2.
  { apply quiet_set_csp. split; try done. apply dd_getitem_same. }
  destruct (forward_checking_spec (neighbors_dict (w_csp w1) !!! country)
    (w_assignment w2) (w_csp w2) Hc1) as (csp3 & -> & Hq3).
  set (w3 := set_csp csp3 w2) in *.
  assert (quiet w2 w3) as Hq3' by (by apply quiet_set_csp).
  exists w0, w3. split; [done|]. split.
  { by eapply quiet_trans. }
  assert (neighbors_dict (w_csp w1) !!! country
          = neighbors_dict (w_csp w) !!! country) as ->.
  { simpl. apply (q_table _ _ Hq0). }
  erewrite bool_decide_ext; [done|].
  apply Forall_proper; [|done]. intros n.
  change (w_assignment w3) with (w_assignment w2).
  by rewrite (count_quiet _ _ _ _ Hq3).
Qed.

Lemma try_color_value_error color w :
  cadj w → loop_test country color w = true →
  list_remove country (unassigned (w_csp w)) = None →
  ∃ w', try_color rec country color w = Some (Return (Raised ValueError), w').
Proof.
  intros Hc Hok Hl. unfold try_color. rewrite Hc, adjacent_c_constraint_eq.
  unfold loop_test in Hok. rewrite Hok.
  set (g := (dd_getitem (module_table w) country).2).
  assert (quiet w (set_module_table g w)) as Hq0.
  { apply quiet_set_module_table, dd_getitem_same. }
  assert (list_remove country (unassigned (w_csp (set_assignment
    (dict_setitem country color (w_assignment (set_module_table g w)))
    (set_module_table g w)))) = None) as ->.
  { simpl. by rewrite (q_unassigned _ _ Hq0). }
  by eexists.
Qed.

End pass.

Section partial.

Variable rec : world → option (result * world).
Variable country : string.
Hypothesis rec_post : ∀ w r w', rec w = Some (r, w') → cadj w → post w r w'.

Lemma try_color_post color w f w' :
  try_color rec country color w = Some (f, w') →
  cadj w → color ∈ domains (w_csp w) →
  match f with Return r => post w r w' | Next => reach w w' end.
Proof.
  intros E Hc Hcol.
  destruct (loop_test country color w) eqn:Eok.
  - destruct (list_remove country (unassigned (w_csp w))) as [l|] eqn:El.
    + destruct (try_color_commit rec country color w l Hc Eok El)
        as (w1 & w3 & Hq1 & Hq3 & E').
      rewrite E' in E.
      assert (reach w w3) as Hr3.
      { eapply reach_trans; [by apply reach_quiet|].
        eapply reach_trans; [|by apply reach_quiet].
        apply reach_step, step_commit.
        - by rewrite (q_domains _ _ Hq1).
        - rewrite (q_assignment _ _ Hq1), (q_module _ _ Hq1). exact Eok.
        - by rewrite (q_unassigned _ _ Hq1). }
      case_bool_decide.
      * destruct (rec w3) as [[r w4]|] eqn:Erec; [|done].
        pose proof (rec_post _ _ _ Erec (reach_cadj _ _ Hr3 Hc)) as Hp.
        destruct r as [a| |e]; injection E as <- <-.
        -- by eapply post_reach.
        -- destruct Hp as [Hr4 _].
           eapply reach_trans; [exact Hr3|]. eapply reach_trans; [exact Hr4|].
           apply reach_undo.
        -- done.
      * injection E as <- <-. split; [done | by intros a].
    + destruct (try_color_value_error rec country color w Hc Eok El) as (w0 & E').
      rewrite E' in E. by injection E as <- <-.
  - destruct (try_color_skip rec country color w Hc Eok) as (w0 & E' & Hq0).
    rewrite E' in E. injection E as <- <-.
    eapply reach_trans; [by apply reach_quiet | apply reach_undo].
Qed.

Lemma for_color_post n i w r w' :
  for_color rec country n i w = Some (r, w') → cadj w → post w r w'.
Proof.
  revert i w. induction n as [|n IH]; intros i w E Hc; simpl in E.
  - destruct (domains (w_csp w) !! i); [done|].
    injection E as <- <-. split; [apply rtc_refl | by intros a].
  - destruct (domains (w_csp w) !! i) as [color|] eqn:Ei.
    + destruct (try_color rec country color w) as [[f w1]|] eqn:Et; [|done].
      apply try_color_post in Et; [|done|by eapply list_elem_of_lookup_2].
      destruct f as [r1|].
      * by injection E as <- <-.
      * apply IH in E; [|by eapply reach_cadj]. by eapply post_reach.
    + injection E as <- <-. split; [apply rtc_refl | by intros a].
Qed.

End partial.

Lemma backtrack_post fuel w r w' :
  backtrack fuel w = Some (r, w') → cadj w → post w r w'.
Proof.
  revert w r w'. induction fuel as [|fuel IH]; intros w r w' E Hc; simpl in E; [done|].
  destruct (Nat.eqb_spec (length (unassigned (w_csp w))) 0) as [Hz|Hnz].
  - injection E as <- <-. split; [apply rtc_refl|].
    intros a [= <-]. split; [done|]. by apply length_zero_iff_nil.
  - destruct (mrv_spec (w_csp w) (w_assignment w) Hc) as (c & csp1 & pre & post & Em & Hq & _).
    { intros Hnil. by rewrite Hnil in Hnz. }
    rewrite Em in E.
    assert (reach w (shuffle_domains (set_csp csp1 w))) as Hq1.
    { eapply reach_trans; [by apply reach_quiet, quiet_set_csp|].
      apply reach_quiet, quiet_shuffle_domains. }
    apply for_color_post in E.
    + by eapply post_reach.
    + exact IH.
    + by eapply reach_cadj.
Qed.


(** * Well-formed stores *)

Lemma list_remove_elem x l r y :
  list_remove x l = Some r → y ∈ l ↔ y = x ∨ y ∈ r.
Proof. intros H. rewrite (list_remove_perm _ _ _ H). apply elem_of_cons. Qed.

Lemma list_remove_NoDup x l r :
  list_remove x l = Some r → NoDup l → NoDup r ∧ x ∉ r.
Proof.
  intros H Hnd. rewrite (list_remove_perm _ _ _ H) in Hnd.
  apply NoDup_cons in Hnd. tauto.
Qed.

Lemma list_remove_length x l r : list_remove x l = Some r → length l = S (length r).
Proof. intros H. by rewrite (list_remove_perm _ _ _ H). Qed.

Lemma dict_keys_delitem k d x :
  NoDup (dict_keys d) → x ∈ dict_keys (dict_delitem k d) ↔ x ≠ k ∧ x ∈ dict_keys d.
Proof.
  intros Hnd. rewrite !dict_keys_get, dict_get_delitem by done.
  destruct (decide (k = x)) as [->|].
  - split; [by intros [? [=]] | by intros [? _]].
  - split; [by intros ?; split | by intros [_ ?]].
Qed.

Lemma step_good w w' : step w w' → good w → good w'.
Proof.
  intros Hs [Hc Hk Hu Hd]. split; [by eapply step_cadj| | |].
  - destruct Hs as [w w' Hq|w c v l _ _ _|w c Hin]; simpl.
    + by rewrite (q_assignment _ _ Hq).
    + by apply dict_setitem_NoDup.
    + unfold undo. rewrite Hin. simpl. by apply dict_delitem_NoDup.
  - destruct Hs as [w w' Hq|w c v l _ _ Hl|w c Hin]; simpl.
    + by rewrite (q_unassigned _ _ Hq).
    + by apply (list_remove_NoDup _ _ _ Hl).
    + unfold undo. rewrite Hin. simpl. unfold unassigned. simpl.
      apply NoDup_app. split; [done|]. split; [|apply NoDup_singleton].
      intros x Hx ->%list_elem_of_singleton.
      apply (Hd c Hx). apply dict_keys_get. by apply dict_contains_true.
  - destruct Hs as [w w' Hq|w c v l _ _ Hl|w c Hin]; simpl.
    + rewrite (q_unassigned _ _ Hq), (q_assignment _ _ Hq). done.
    + intros x Hx. unfold unassigned in Hx. simpl in Hx.
      rewrite dict_keys_setitem. intros [->|Hin].
      * by apply (list_remove_NoDup _ _ _ Hl).
      * apply (Hd x); [|done]. apply (list_remove_elem _ _ _ x Hl). by right.
    + unfold undo. rewrite Hin. simpl. unfold unassigned. simpl.
      intros x Hx. rewrite dict_keys_delitem by done.
      intros [Hne Hk']. apply elem_of_app in Hx as [Hx| ->%list_elem_of_singleton].
      * by apply (Hd x).
      * done.
Qed.

Lemma reach_good w w' : reach w w' → good w → good w'.
Proof. induction 1; eauto using step_good. Qed.

Lemma step_domains w w' : step w w' → domains (w_csp w') ≡ₚ domains (w_csp w).
Proof.
  intros [w1 w2 Hq|w1 c v l _ _ _|w1 c Hin]; simpl.
  - apply (q_domains _ _ Hq).
  - done.
  - unfold undo. by destruct (dict_contains _ _).
Qed.

Lemma reach_domains w w' : reach w w' → domains (w_csp w') ≡ₚ domains (w_csp w).
Proof.
  induction 1 as [|w1 w2 w3 Hs _ IH]; [done|].
  by rewrite IH, (step_domains _ _ Hs).
Qed.

(** * Soundness invariant *)

Section invariant.

Variables (V D : list string) (G : table).
Hypothesis G_sym : ∀ x y, x ∈ V → y ∈ V → y ∈ G !!! x → x ∈ G !!! y.

Lemma step_inv w w' : step w w' → inv V D G w → inv V D G w'.
Proof.
  intros Hs [Hk Hcov Hkn Hval Hdom Hmod Hcons].
  destruct Hs as [w w' Hq|w c col l Hcol Hok Hl|w c Hin].
  - split.
    + by rewrite (q_assignment _ _ Hq).
    + by rewrite (q_assignment _ _ Hq), (q_unassigned _ _ Hq).
    + by rewrite (q_assignment _ _ Hq), (q_unassigned _ _ Hq).
    + by rewrite (q_assignment _ _ Hq).
    + by rewrite (q_domains _ _ Hq).
    + eapply same_lists_trans; [done | apply (q_module _ _ Hq)].
    + by rewrite (q_assignment _ _ Hq).
  - assert (c ∈ V) as HcV.
    { apply Hkn. left. apply (list_remove_elem _ _ _ c Hl). by left. }
    rewrite Hmod in Hok. rewrite no_neighbor_holds_true in Hok.
    split; simpl.
    + by apply dict_setitem_NoDup.
    + intros x Hx. rewrite dict_keys_setitem. unfold unassigned. simpl.
      destruct (Hcov x Hx) as [Hu|Hu]; [|tauto].
      apply (list_remove_elem _ _ _ x Hl) in Hu. tauto.
    + intros x. rewrite dict_keys_setitem. unfold unassigned. simpl.
      intros [Hx|[->|Hx]]; [|done|].
      * apply Hkn. left. apply (list_remove_elem _ _ _ x Hl). by right.
      * apply Hkn. by right.
    + intros k v. rewrite dict_get_setitem. case_decide.
      * intros [= <-]. by rewrite <- Hdom.
      * apply Hval.
    + done.
    + done.
    + intros x y v Hne. rewrite !dict_get_setitem.
      destruct (decide (c = x)) as [->|Hcx].
      * intros [= <-] Hy. rewrite decide_False by done. by apply Hok.
      * intros Hx Hy. destruct (decide (c = y)) as [->|Hcy]; [|by apply (Hcons x y v)].
        intros [= <-]. apply (Hok x); [|done]. apply G_sym; [|done|done].
        apply Hkn. right. apply dict_keys_get. by rewrite Hx.
  - unfold undo. rewrite Hin. split; simpl.
    + by apply dict_delitem_NoDup.
    + intros x Hx. unfold unassigned. simpl. rewrite dict_keys_delitem by done.
      rewrite elem_of_app, list_elem_of_singleton.
      destruct (decide (x = c)) as [->|]; [tauto|].
      destruct (Hcov x Hx); tauto.
    + intros x. unfold unassigned. simpl. rewrite dict_keys_delitem by done.
      rewrite elem_of_app, list_elem_of_singleton.
      intros [[Hx| ->]|[_ Hx]].
      * apply Hkn. by left.
      * apply Hkn. right. apply dict_keys_get. by apply dict_contains_true.
      * apply Hkn. by right.
    + intros k v. rewrite dict_get_delitem by done. case_decide; [done|apply Hval].
    + done.
    + done.
    + intros x y v Hne. rewrite !dict_get_delitem by done.
      repeat case_decide; try done. by apply (Hcons x y v).
Qed.

Lemma reach_inv w w' : reach w w' → inv V D G w → inv V D G w'.
Proof. induction 1; eauto using step_inv. Qed.

End invariant.



(** * Every call returns *)

Lemma returns_refl w r : (∀ e, r ≠ Raised e) → returns w r w.
Proof. intros H. split; [done | by intros k v | lia]. Qed.

Lemma commit_good country color l w :
  good w → list_remove country (unassigned (w_csp w)) = Some l →
  good (commit country color l w).
Proof.
  intros [Hc Hk Hu Hd] Hl.
  assert (country ∈ unassigned (w_csp w)) as Hin.
  { apply (list_remove_elem _ _ _ country Hl). by left. }
  split; simpl.
  - done.
  - by apply dict_setitem_NoDup.
  - by apply (list_remove_NoDup _ _ _ Hl).
  - intros x Hx. unfold unassigned in Hx. simpl in Hx.
    rewrite dict_keys_setitem. intros [->|Hk'].
    + by apply (list_remove_NoDup _ _ _ Hl).
    + apply (Hd x); [|done]. apply (list_remove_elem _ _ _ x Hl). by right.
Qed.

Lemma quiet_good w w' : quiet w w' → good w → good w'.
Proof. intros. eapply step_good; [by apply step_quiet|done]. Qed.

Section total.

Variable rec : world → option (result * world).
Variable country : string.
Variable bound : nat.
Hypothesis rec_post : ∀ w r w', rec w = Some (r, w') → cadj w → post w r w'.
Hypothesis rec_total : ∀ w,
  good w → length (unassigned (w_csp w)) < bound →
  ∃ r w', rec w = Some (r, w') ∧ returns w r w'.

Lemma try_color_total color w :
  good w → country ∈ unassigned (w_csp w) →
  length (unassigned (w_csp w)) ≤ bound →
  ∃ f w', try_color rec country color w = Some (f, w') ∧
    match f with
    | Return r => returns w r w'
    | Next =>
        good w' ∧ country ∈ unassigned (w_csp w') ∧
        extends (w_assignment w) (w_assignment w') ∧
        length (unassigned (w_csp w')) ≤ length (unassigned (w_csp w)) ∧
        length (domains (w_csp w')) = length (domains (w_csp w))
    end.
Proof.
  intros Hg Hin Hlen.
  assert (dict_get country (w_assignment w) = None) as Hfresh.
  { apply dict_get_None. by apply (good_disjoint _ Hg). }
  destruct (loop_test country color w) eqn:Eok.
  - destruct (list_remove_Some _ _ Hin) as [l Hl].
    destruct (try_color_commit rec country color w l (good_cadj _ Hg) Eok Hl)
      as (w1 & w3 & Hq1 & Hq3 & ->).
    assert (good w3) as Hg3.
    { eapply quiet_good; [done|]. apply commit_good.
      - by eapply quiet_good.
      - by rewrite (q_unassigned _ _ Hq1). }
    assert (w_assignment w3 = dict_setitem country color (w_assignment w)) as Ea3.
    { rewrite (q_assignment _ _ Hq3). simpl. by rewrite (q_assignment _ _ Hq1). }
    assert (unassigned (w_csp w3) = l) as Eu3.
    { by rewrite (q_unassigned _ _ Hq3). }
    assert (extends (w_assignment w) (w_assignment w3)) as Hext3.
    { intros k v Hk. rewrite Ea3, dict_get_setitem.
      rewrite decide_False; [done|]. intros ->. congruence. }
    pose proof (list_remove_length _ _ _ Hl) as Hlen3.
    case_bool_decide as Halive.
    + destruct (rec_total w3 Hg3) as (r & w4 & Er & [Hne Hext4 Hlen4]).
      { rewrite Eu3. lia. }
      rewrite Er.
      assert (extends (w_assignment w) (w_assignment w4)) as Hext.
      { intros k v Hk. by apply Hext4, Hext3. }
      destruct r as [a| |e].
      * eexists _, _. split; [done|]. split; [done|done|].
        rewrite Eu3 in Hlen4. lia.
      * eexists _, _. split; [done|].
        pose proof (rec_post _ _ _ Er (good_cadj _ Hg3)) as [Hr4 _].
        pose proof (reach_good _ _ Hr4 Hg3) as Hg4.
        assert (dict_contains country (w_assignment w4) = true) as Hc4.
        { apply dict_contains_true. exists color. apply Hext4.
          rewrite Ea3, dict_get_setitem. by rewrite decide_True. }
        split; [|split; [|split; [|split]]].
        -- eapply step_good; [by apply step_undo|done].
        -- unfold undo. rewrite Hc4. unfold unassigned. simpl.
           apply elem_of_app. right. by apply list_elem_of_singleton.
        -- unfold undo. rewrite Hc4. simpl. intros k v Hk.
           rewrite dict_get_delitem by apply (good_keys _ Hg4).
           rewrite decide_False; [by apply Hext|]. intros ->. congruence.
        -- unfold undo. rewrite Hc4. unfold unassigned in *. simpl.
           rewrite length_app. simpl. rewrite Eu3 in Hlen4. lia.
        -- pose proof (reach_domains _ _ Hr4) as Hd4.
           unfold undo. rewrite Hc4. simpl. rewrite Hd4.
           rewrite (q_domains _ _ Hq3). simpl. by rewrite (q_domains _ _ Hq1).
      * by destruct (Hne e).
    + eexists _, _. split; [done|]. split; [done|done|].
      rewrite Eu3. lia.
  - destruct (try_color_skip rec country color w (good_cadj _ Hg) Eok)
      as (w0 & -> & Hq0).
    eexists _, _. split; [done|].
    assert (dict_contains country (w_assignment w0) = false) as Hc0.
    { apply dict_contains_false. by rewrite (q_assignment _ _ Hq0). }
    unfold undo. rewrite Hc0.
    split; [by eapply quiet_good|].
    rewrite (q_unassigned _ _ Hq0), (q_assignment _ _ Hq0), (q_domains _ _ Hq0).
    split; [done|]. split; [by intros k v|]. split; [lia|done].
Qed.

Lemma for_color_total n i w :
  good w → country ∈ unassigned (w_csp w) →
  length (unassigned (w_csp w)) ≤ bound →
  length (domains (w_csp w)) ≤ n + i →
  ∃ r w', for_color rec country n i w = Some (r, w') ∧ returns w r w'.
Proof.
  revert i w. induction n as [|n IH]; intros i w Hg Hin Hlen Hn; simpl.
  - rewrite lookup_ge_None_2 by done.
    eexists _, _. split; [done|]. by apply returns_refl.
  - destruct (domains (w_csp w) !! i) as [color|] eqn:Ei.
    + destruct (try_color_total color w Hg Hin Hlen) as (f & w1 & -> & H).
      destruct f as [r|].
      * eauto.
      * destruct H as (Hg1 & Hin1 & Hext1 & Hlen1 & Hd1).
        destruct (IH (S i) w1) as (r & w' & -> & [Hne Hext Hlen']); try done.
        { lia. }
        { lia. }
        eexists _, _. split; [done|]. split; [done| |lia].
        intros k v Hk. by apply Hext, Hext1.
    + eexists _, _. split; [done|]. by apply returns_refl.
Qed.

End total.

Lemma backtrack_total fuel w :
  good w → length (unassigned (w_csp w)) < fuel →
  ∃ r w', backtrack fuel w = Some (r, w') ∧ returns w r w'.
Proof.
  revert w. induction fuel as [|fuel IH]; intros w Hg Hlen; [lia|]. simpl.
  destruct (Nat.eqb_spec (length (unassigned (w_csp w))) 0) as [Hz|Hnz].
  - eexists _, _. split; [done|]. by apply returns_refl.
  - destruct (mrv_spec (w_csp w) (w_assignment w) (good_cadj _ Hg))
      as (c & csp1 & pre & suf & -> & Hq & Hu & _).
    { intros Hnil. by rewrite Hnil in Hnz. }
    set (w1 := shuffle_domains (set_csp csp1 w)).
    assert (quiet w w1) as Hq1.
    { eapply quiet_trans; [by apply quiet_set_csp|].
      apply quiet_shuffle_domains. }
    destruct (for_color_total (backtrack fuel) c fuel
      (λ w r w' E Hc, backtrack_post fuel w r w' E Hc) IH
      (length (domains (w_csp w1))) 0 w1) as (r & w' & -> & [Hne Hext Hlen']).
    + by eapply quiet_good.
    + rewrite (q_unassigned _ _ Hq1), Hu. apply elem_of_app. right. by left.
    + rewrite (q_unassigned _ _ Hq1). lia.
    + lia.
    + eexists _, _. split; [done|]. split; [done| |].
      * by rewrite <- (q_assignment _ _ Hq1).
      * by rewrite <- (q_unassigned _ _ Hq1).
Qed.


Lemma start_inv V D G rs :
  inv V D G (start (CSP_init V D G adjacent_c_constraint) None rs).
Proof.
  split; simpl; try done.
  - apply NoDup_nil_2.
  - intros x Hx. by left.
  - intros x [Hx|Hx]; [done|]. by apply elem_of_nil in Hx.
Qed.

Lemma bts_sound_aux fuel V D G rs a w' :
  symmetric_on V G →
  bts fuel (CSP_init V D G adjacent_c_constraint) None rs = Some (Solution a, w') →
  valid_coloring V D G a.
Proof.
  intros Hsym E. unfold bts in E.
  apply backtrack_post in E as [Hr Hf]; [|done].
  destruct (Hf a eq_refl) as [-> Hu].
  assert (∀ x y, x ∈ V → y ∈ V → y ∈ G !!! x → x ∈ G !!! y) as Hsym'.
  { intros x y Hx Hy. unfold symmetric_on in Hsym.
    rewrite Forall_forall in Hsym. specialize (Hsym x Hx).
    rewrite Forall_forall in Hsym. by apply Hsym. }
  pose proof (reach_inv V D G Hsym' _ _ Hr (start_inv V D G rs)) as
    [Hk Hcov Hkn Hval Hdom Hmod Hcons].
  split.
  - intros x Hx. apply dict_keys_get. destruct (Hcov x Hx) as [H|H]; [|done].
    rewrite Hu in H. by apply elem_of_nil in H.
  - done.
  - intros x y c _ _ Hne Hy Hx. by apply (Hcons x y c).
Qed.


(** * The validator *)

Lemma dict_contains_keys k d : dict_contains k d = true ↔ k ∈ dict_keys d.
Proof. by rewrite dict_contains_true, dict_keys_get. Qed.

Lemma check_complete_Returned result countries :
  check_complete result countries = Returned ↔ complete result countries.
Proof.
  unfold complete. induction countries as [|c countries IH]; simpl.
  - split; [by constructor | done].
  - rewrite Forall_cons, <- IH, <- dict_contains_keys.
    destruct (dict_contains c result); [tauto|]. split; [done | by intros [? _]].
Qed.

Lemma check_complete_missing result pre c post :
  complete result pre → c ∉ dict_keys result →
  check_complete result (pre ++ c :: post) = Raise (AssignmentError c).
Proof.
  intros Hpre Hc. induction Hpre as [|x pre Hx _ IH]; simpl.
  - rewrite <- dict_contains_keys in Hc. by destruct (dict_contains c result).
  - apply dict_contains_keys in Hx. by rewrite Hx.
Qed.

Lemma check_neighbors_Returned result key value l :
  check_neighbors result key value l = Returned ↔ Forall (differs result value) l.
Proof.
  induction l as [|n l IH]; simpl.
  - split; [by constructor | done].
  - rewrite Forall_cons, <- IH. unfold differs.
    destruct (dict_get n result) as [v'|]; [|split; [done|by intros [[[? [=]] _] _]]].
    case_bool_decide as Hv; [subst|].
    + split; [done | by intros [[_ ?] _]].
    + split; [|tauto]. intros H. split; [|done]. split; [eauto | congruence].
Qed.

Lemma check_neighbors_first result key value npre n npost :
  Forall (differs result value) npre →
  check_neighbors result key value (npre ++ n :: npost) =
    match dict_get n result with
    | None => Raise (KeyError n)
    | Some value' =>
        if bool_decide (value' = value)
        then Raise (ConstraintViolationError key n)
        else check_neighbors result key value npost
    end.
Proof.
  intros Hpre. induction Hpre as [|m npre [[v' Hm] Hne] _ IH]; simpl; [done|].
  rewrite Hm in *. rewrite bool_decide_eq_false_2; [done|congruence].
Qed.

Lemma clean_same_lists result countries colors nd nd' e :
  same_lists nd nd' →
  clean result countries colors nd' e ↔ clean result countries colors nd e.
Proof. intros H. unfold clean. by rewrite H. Qed.

Lemma check_items_table result countries colors items nd :
  same_lists nd (check_items result countries colors items nd).2 ∧
  ((∀ k, k ∈ dict_keys items → is_Some (nd !! k)) →
   (check_items result countries colors items nd).2 = nd).
Proof.
  revert nd. induction items as [|[k v] items IH]; intros nd; simpl; [done|].
  destruct (list_contains k countries); simpl; [|done].
  destruct (list_contains v colors); simpl; [|done].
  rewrite (surjective_pairing (dd_getitem nd k)).
  destruct (check_neighbors _ _ _ _).
  - destruct (IH (dd_getitem nd k).2) as [H1 H2]. split.
    + eapply same_lists_trans; [apply dd_getitem_same | done].
    + intros Hk. assert ((dd_getitem nd k).2 = nd) as E.
      { apply dd_getitem_present, Hk. by left. }
      rewrite E in *. apply H2. intros k' Hk'. apply Hk. by right.
  - simpl. split; [apply dd_getitem_same|].
    intros Hk. apply dd_getitem_present, Hk. by left.
Qed.

Lemma check_items_Returned result countries colors items nd :
  (check_items result countries colors items nd).1 = Returned ↔
  Forall (clean result countries colors nd) items.
Proof.
  revert nd. induction items as [|[k v] items IH]; intros nd; simpl.
  - split; [by constructor | done].
  - rewrite Forall_cons. unfold clean at 1. simpl. unfold list_contains.
    case_bool_decide as Hk; simpl; [|split; [done | by intros [[? _] _]]].
    case_bool_decide as Hv; simpl; [|split; [done | by intros [(_ & ? & _) _]]].
    rewrite (surjective_pairing (dd_getitem nd k)), dd_getitem_fst.
    rewrite <- check_neighbors_Returned with (key := k).
    destruct (check_neighbors result k v (nd !!! k)); simpl.
    + rewrite IH.
      assert (Forall (clean result countries colors (dd_getitem nd k).2) items
              ↔ Forall (clean result countries colors nd) items) as ->.
      { apply Forall_proper; [|done]. intros e.
        apply clean_same_lists, dd_getitem_same. }
      tauto.
    + split; [done | by intros [(_ & _ & ?) _]].
Qed.

Lemma check_items_first result countries colors pre k v post nd :
  Forall (clean result countries colors nd) pre →
  ∃ nd', same_lists nd nd' ∧
    (check_items result countries colors (pre ++ (k, v) :: post) nd).1 =
    (check_items result countries colors ((k, v) :: post) nd').1.
Proof.
  revert nd. induction pre as [|[k0 v0] pre IH]; intros nd Hpre; simpl.
  - by exists nd.
  - apply Forall_cons in Hpre as [(Hk & Hv & Hn) Hpre]. simpl in *.
    unfold list_contains. rewrite !bool_decide_eq_true_2 by done. simpl.
    rewrite (surjective_pairing (dd_getitem nd k0)), dd_getitem_fst.
    apply (check_neighbors_Returned result k0) in Hn. rewrite Hn.
    destruct (IH (dd_getitem nd k0).2) as (nd' & Hs & E).
    { eapply Forall_impl; [done|]. intros e.
      apply clean_same_lists, dd_getitem_same. }
    exists nd'. split; [|done].
    eapply same_lists_trans; [apply dd_getitem_same | done].
Qed.


(** * More fuel changes nothing *)

Section fuel.

Variables rec rec' : world → option (result * world).
Variable country : string.
Hypothesis rec_le : ∀ w x, rec w = Some x → rec' w = Some x.

Lemma try_color_mono color w x :
  try_color rec country color w = Some x →
  try_color rec' country color w = Some x.
Proof.
  unfold try_color.
  destruct (constraints _ _ _ _ _) as [ok g].
  destruct ok; [|done].
  destruct (list_remove _ _) as [l|]; [|done].
  destruct (dd_getitem _ _) as [nbrs nd].
  destruct (forward_checking _ _ _) as [alive csp].
  destruct alive; [|done].
  destruct (rec _) as [[r w4]|] eqn:E; [|done].
  by rewrite (rec_le _ _ E).
Qed.

Lemma for_color_mono n i w x :
  for_color rec country n i w = Some x →
  for_color rec' country n i w = Some x.
Proof.
  revert i w. induction n as [|n IH]; intros i w; simpl; [done|].
  destruct (domains (w_csp w) !! i) as [color|]; [|done].
  destruct (try_color rec country color w) as [[f w1]|] eqn:E; [|done].
  rewrite (try_color_mono _ _ _ E). destruct f; [done|]. apply IH.
Qed.

End fuel.

Lemma backtrack_fuel_mono fuel fuel' w x :
  fuel ≤ fuel' → backtrack fuel w = Some x → backtrack fuel' w = Some x.
Proof.
  revert fuel' w x. induction fuel as [|fuel IH]; intros fuel' w x Hle; [done|].
  destruct fuel' as [|fuel']; [lia|]. simpl.
  destruct (_ =? _); [done|].
  destruct (mrv _ _) as [[c csp]|]; [|done].
  apply for_color_mono. intros w0 x0. apply IH. lia.
Qed.

(** * The search: what is observed of a run *)

Lemma symmetric_on_spec V G :
  symmetric_on V G ↔ ∀ x y, x ∈ V → y ∈ V → y ∈ G !!! x → x ∈ G !!! y.
Proof.
  unfold symmetric_on. rewrite Forall_forall. split.
  - intros H x y Hx Hy. specialize (H x Hx). rewrite Forall_forall in H. by apply H.
  - intros H x Hx. apply Forall_forall. intros y Hy. by apply H.
Qed.

Lemma start_good V D G g rs :
  NoDup V → good (start (CSP_init V D G adjacent_c_constraint) g rs).
Proof.
  intros HV. split; simpl; try done.
  - apply NoDup_nil_2.
  - intros x _ Hx. by apply elem_of_nil in Hx.
Qed.

Lemma bts_total fuel V D G g rs :
  NoDup V → length V < fuel →
  ∃ r w', bts fuel (CSP_init V D G adjacent_c_constraint) g rs = Some (r, w')
          ∧ ∀ e, r ≠ Raised e.
Proof.
  intros HV Hf.
  destruct (backtrack_total fuel
    (start (CSP_init V D G adjacent_c_constraint) g rs)) as (r & w' & E & [Hne _ _]).
  - by apply start_good.
  - done.
  - by exists r, w'.
Qed.

Lemma step_partition w w' :
  step w w' → good w →
  ∀ x, x ∈ unassigned (w_csp w') ∨ x ∈ dict_keys (w_assignment w')
       ↔ x ∈ unassigned (w_csp w) ∨ x ∈ dict_keys (w_assignment w).
Proof.
  intros Hs Hg x. destruct Hs as [w w' Hq|w c v l _ _ Hl|w c Hin].
  - by rewrite (q_unassigned _ _ Hq), (q_assignment _ _ Hq).
  - unfold commit, unassigned. simpl. rewrite dict_keys_setitem.
    pose proof (list_remove_elem _ _ _ x Hl) as Hx. unfold unassigned in Hx.
    tauto.
  - unfold undo. rewrite Hin. unfold unassigned. simpl.
    rewrite (dict_keys_delitem _ _ _ (good_keys _ Hg)).
    rewrite elem_of_app, list_elem_of_singleton.
    apply dict_contains_keys in Hin.
    destruct (decide (x = c)) as [->|]; tauto.
Qed.

(** Along a search the unassigned list and the keys of the assignment stay
    apart and keep the same union. *)
Lemma reach_partition w w' :
  reach w w' → good w →
  good w' ∧
  ∀ x, x ∈ unassigned (w_csp w') ∨ x ∈ dict_keys (w_assignment w')
       ↔ x ∈ unassigned (w_csp w) ∨ x ∈ dict_keys (w_assignment w).
Proof.
  induction 1 as [w|w1 w2 w3 Hs _ IH]; intros Hg; [done|].
  destruct (IH (step_good _ _ Hs Hg)) as [Hg3 H3]. split; [done|].
  intros x. by rewrite H3, (step_partition _ _ Hs Hg).
Qed.

Lemma bts_partition fuel V D G g rs r w' :
  NoDup V →
  bts fuel (CSP_init V D G adjacent_c_constraint) g rs = Some (r, w') →
  (∀ e, r ≠ Raised e) →
  good w' ∧
  ∀ x, x ∈ unassigned (w_csp w') ∨ x ∈ dict_keys (w_assignment w') ↔ x ∈ V.
Proof.
  intros HV E Hne. apply backtrack_post in E; [|done].
  assert (reach (start (CSP_init V D G adjacent_c_constraint) g rs) w') as Hr.
  { destruct r as [a| |e]; [apply E | apply E | by destruct (Hne e)]. }
  destruct (reach_partition _ _ Hr (start_good V D G g rs HV)) as [Hg Hp].
  split; [done|]. intros x. rewrite Hp. simpl. unfold unassigned. simpl.
  split; [intros [?|[]%elem_of_nil]; done | by left].
Qed.

Lemma valid_coloring_dec_aux V D G a :
  Forall (λ x, is_Some (dict_get x a)) V →
  Forall (λ e, e.2 ∈ D) a →
  Forall (λ x, Forall (λ y, x ≠ y → y ∈ G !!! x →
                            dict_get x a ≠ dict_get y a) V) V →
  valid_coloring V D G a.
Proof.
  intros H1 H2 H3. split.
  - by apply Forall_forall.
  - intros k c Hk. apply dict_get_Some_elem in Hk.
    rewrite Forall_forall in H2. by apply (H2 (k, c)).
  - intros x y c Hx Hy Hne Hin Hgx Hgy.
    rewrite Forall_forall in H3. specialize (H3 x Hx).
    rewrite Forall_forall in H3. apply (H3 y Hy Hne Hin). congruence.
Qed.

Lemma triangle_two_colors_unsatisfiable a :
  ¬ valid_coloring ["A"; "B"; "C"] ["r"; "g"] (list_to_map triangle) a.
Proof.
  intros [Hp Hv Hc].
  destruct (Hp "A") as [ca Ea]; [by_compute|].
  destruct (Hp "B") as [cb Eb]; [by_compute|].
  destruct (Hp "C") as [cc Ec]; [by_compute|].
  assert ("B" ∈ (list_to_map triangle : table) !!! "A") as Hab by by_compute.
  assert ("C" ∈ (list_to_map triangle : table) !!! "A") as Hac by by_compute.
  assert ("C" ∈ (list_to_map triangle : table) !!! "B") as Hbc by by_compute.
  pose proof (Hc "A" "B" ca) as Hab'. pose proof (Hc "A" "C" ca) as Hac'.
  pose proof (Hc "B" "C" cb) as Hbc'.
  assert (ca ≠ cb) by (intros ->; apply Hab'; try done; by_compute).
  assert (ca ≠ cc) by (intros ->; apply Hac'; try done; by_compute).
  assert (cb ≠ cc) by (intros ->; apply Hbc'; try done; by_compute).
  pose proof (Hv _ _ Ea) as Ha. pose proof (Hv _ _ Eb) as Hb.
  pose proof (Hv _ _ Ec) as Hc'.
  repeat match goal with
         | H : _ ∈ _ :: _ |- _ => apply elem_of_cons in H as [->|H]
         | H : _ ∈ [] |- _ => by apply elem_of_nil in H
         end; congruence.
Qed.

(** With three values the triangle is coloured for each of the 216
    sequences of six draws whose entries are below 3, 2, 3, 2, 3, 2 in turn
    (the bounds [random.shuffle] asks of [randbelow] on three values).  This
    is an enumeration of those sequences, not a statement about every
    sequence of raw draws. *)
Lemma triangle_three_values_succeeds :
  forallb (λ rs, succeeds (run 4 ["A"; "B"; "C"] ["r"; "g"; "b"] triangle rs))
    (all_draws [3; 2; 3; 2; 3; 2]) = true.
Proof. vm_compute. reflexivity. Qed.

Lemma count_possible_values csp a u :
  constraints csp = adjacent_c_constraint →
  length (possible_values csp u a).1 = count csp a u.
Proof.
  intros Hc. by destruct (possible_values_spec csp u a Hc) as (csp' & -> & _).
Qed.

Lemma first_minimum_unique (f : string → nat) l pre c post pre' c' post' :
  l = pre ++ c :: post → l = pre' ++ c' :: post' →
  (∀ u, u ∈ pre → f c < f u) → (∀ u, u ∈ post → f c ≤ f u) →
  (∀ u, u ∈ pre' → f c' < f u) → (∀ u, u ∈ post' → f c' ≤ f u) →
  c = c'.
Proof.
  intros E E' H1 H2 H1' H2'.
  assert (l !! length pre = Some c) as Lc.
  { rewrite E. by rewrite list_lookup_middle. }
  assert (l !! length pre' = Some c') as Lc'.
  { rewrite E'. by rewrite list_lookup_middle. }
  destruct (Nat.lt_trichotomy (length pre) (length pre')) as [Hlt|[Heq|Hgt]].
  - assert (c ∈ pre') as Hin.
    { rewrite E', lookup_app_l in Lc by done. by eapply list_elem_of_lookup_2. }
    assert (c' ∈ post) as Hin'.
    { rewrite E, lookup_app_r in Lc' by lia.
      destruct (length pre' - length pre) as [|k] eqn:Ek; [lia|].
      simpl in Lc'. by eapply list_elem_of_lookup_2. }
    specialize (H1' c Hin). specialize (H2 c' Hin'). lia.
  - rewrite Heq in Lc. congruence.
  - assert (c' ∈ pre) as Hin.
    { rewrite E, lookup_app_l in Lc' by done. by eapply list_elem_of_lookup_2. }
    assert (c ∈ post') as Hin'.
    { rewrite E', lookup_app_r in Lc by lia.
      destruct (length pre - length pre') as [|k] eqn:Ek; [lia|].
      simpl in Lc. by eapply list_elem_of_lookup_2. }
    specialize (H1 c' Hin). specialize (H2' c Hin'). lia.
Qed.

Lemma legal_Forall csp country a v :
  legal csp country a v
  = bool_decide (Forall (λ n, dict_get n a ≠ Some v)
                   (neighbors_dict csp !!! country)).
Proof.
  unfold legal. apply eq_true_iff_eq.
  rewrite no_neighbor_holds_true, bool_decide_eq_true, Forall_forall. done.
Qed.

Lemma filter_all {A} (f : A → bool) l :
  (∀ x, f x = true) → List.filter f l = l.
Proof. intros H. induction l as [|x l IH]; simpl; [done|]. by rewrite H, IH. Qed.

Lemma no_neighbor_holds_single l y color :
  no_neighbor_holds l color [(y, color)] = bool_decide (y ∉ l).
Proof.
  apply eq_true_iff_eq.
  rewrite no_neighbor_holds_true, bool_decide_eq_true. split.
  - intros H Hy. apply (H y Hy). simpl. by rewrite decide_True.
  - intros Hy n Hn. simpl. destruct (decide (y = n)) as [->|]; done.
Qed.

Lemma elem_of_List_filter (f : string → bool) l x :
  x ∈ List.filter f l ↔ x ∈ l ∧ f x = true.
Proof. rewrite !list_elem_of_In. apply List.filter_In. Qed.

(** * The claims *)

(** ** Forward checking and the undo (C1) *)

(** C1.  The claim: when forward checking finds a neighbour of the variable
    just assigned without a legal value, the engine takes the variable out
    of the assignment and puts it back in the unassigned list before it
    returns failure.  The code returns from inside the forward-checking
    loop: on variables A, B in conflict and the single value red, [bts]
    returns ['Failure'] with A still assigned red and only B unassigned. *)
Theorem forward_check_return_keeps_commit :
  observe (run 3 ["A"; "B"] ["red"] [("A", ["B"]); ("B", ["A"])] [])
  = Some (Failure, [("A", "red")], ["B"], ["red"]).
Proof. vm_compute. reflexivity. Qed.

(** ** What a solve changes (C2) *)

(** C2.  The claim: a solve leaves the instance's variables sequence and
    domain sequence unchanged.  On one variable A and the values red, blue,
    with a first draw of 0, [bts] returns A = blue and leaves the instance
    with no variables and with the domain in the order blue, red. *)
Theorem solve_empties_variables_and_reorders_domains :
  observe (run 2 ["A"] ["red"; "blue"] [("A", [])] [0])
  = Some (Solution [("A", "blue")], [("A", "blue")], [], ["blue"; "red"]).
Proof. vm_compute. reflexivity. Qed.

(** ** Completeness (C3) *)

(** C3.  The claim: an instance with a valid colouring is never reported as
    a failure.  The instance [kite] has the valid colouring X = r, Q = g,
    P = g, V = r, W = b, and with the draws 0, 0, 1, 1, 0, 1, 1, 0 [bts]
    returns ['Failure'], leaving V, P and Q assigned. *)
Theorem satisfiable_instance_reported_as_failure :
  valid_coloring ["X"; "Q"; "P"; "V"; "W"] ["r"; "g"; "b"] (list_to_map kite)
    [("X", "r"); ("Q", "g"); ("P", "g"); ("V", "r"); ("W", "b")]
  ∧ observe (run 6 ["X"; "Q"; "P"; "V"; "W"] ["r"; "g"; "b"] kite
               [0; 0; 1; 1; 0; 1; 1; 0])
    = Some (Failure, [("V", "g"); ("P", "b"); ("Q", "r")], ["W"; "X"],
            ["g"; "b"; "r"]).
Proof.
  split.
  - apply valid_coloring_dec_aux; by_compute.
  - vm_compute. reflexivity.
Qed.

(** ** Soundness (C4) *)

(** C4, as stated, fails: when A lists B as a conflict but B does not list
    A, [bts] gives both the value red. *)
Lemma one_sided_conflict_is_not_seen :
  ∃ a w',
    bts 3 (CSP_init ["A"; "B"] ["red"]
             (list_to_map [("A", ["B"]); ("B", [])]) adjacent_c_constraint)
      None []
    = Some (Solution a, w')
    ∧ ¬ valid_coloring ["A"; "B"] ["red"]
          (list_to_map [("A", ["B"]); ("B", [])]) a.
Proof.
  eexists _, _. split; [vm_compute; reflexivity|].
  intros [_ _ H]. apply (H "A" "B" "red"); try done; by_compute.
Qed.

(** C4.  For every instance whose conflict lists are symmetric between its
    variables, solved with the module-level table being the instance's own
    table: if [bts] returns an assignment, then every variable is present
    in it, every assigned value belongs to the domain, and no two variables
    of which one lists the other hold the same value. *)
Theorem bts_sound fuel V D G rs a w' :
  symmetric_on V G →
  bts fuel (CSP_init V D G adjacent_c_constraint) None rs
  = Some (Solution a, w') →
  valid_coloring V D G a.
Proof. apply bts_sound_aux. Qed.

Lemma bts_sound_witness :
  valid_coloring ["A"; "B"; "C"] ["red"; "blue"] (list_to_map path)
    (solution_of (run 4 ["A"; "B"; "C"] ["red"; "blue"] path [0])).
Proof.
  apply (bts_sound 4 ["A"; "B"; "C"] ["red"; "blue"] (list_to_map path) [0] _
           (world_of (run 4 ["A"; "B"; "C"] ["red"; "blue"] path [0]))).
  - by_compute.
  - vm_compute. reflexivity.
Defined.

(** ** The validator's conditions (C5) *)

(** C5, as stated, fails: the unknown-variable and unknown-value tests are
    not run over the whole assignment before the conflicts are looked at.
    With A and B in conflict and both red, and an unknown variable Z after
    them, [check] raises the constraint violation of A and B, where the
    checks taken phase by phase raise the unknown variable Z. *)
Lemma violation_reported_before_unknown_variable :
  let result := [("A", "red"); ("B", "red"); ("Z", "red")] in
  let neighbors : table := list_to_map [("A", ["B"]); ("B", ["A"])] in
  (check result ["A"; "B"] ["red"] neighbors).1
  = Raise (ConstraintViolationError "A" "B")
  ∧ check_by_phases result ["A"; "B"] ["red"] neighbors
    = Raise (CountryNotFoundError "Z").
Proof. split; vm_compute; reflexivity. Qed.

(** C5.  [check] first raises the incomplete-assignment condition for the
    first variable without an entry.  On a complete assignment it visits
    the entries in order, and at the first entry that is not clean it
    raises: the unknown-variable condition if the key is unknown, else the
    unknown-value condition if the value is unknown, else, at the first
    listed neighbour that does not hold a different value, the constraint
    violation naming the key and that neighbour (or [KeyError] if that
    neighbour has no entry).  It returns silently exactly when the
    assignment is complete and every entry is clean. *)
Theorem check_outcome result countries colors nd :
  let out := (check result countries colors nd).1 in
  (∀ pre c post,
     countries = pre ++ c :: post → complete result pre →
     c ∉ dict_keys result → out = Raise (AssignmentError c))
  ∧ (complete result countries →
     ∀ pre k v post,
       result = pre ++ (k, v) :: post →
       Forall (clean result countries colors nd) pre →
       (k ∉ countries → out = Raise (CountryNotFoundError k))
       ∧ (k ∈ countries → v ∉ colors → out = Raise (ColorNotFoundError v))
       ∧ (k ∈ countries → v ∈ colors →
          ∀ npre n npost,
            nd !!! k = npre ++ n :: npost →
            Forall (differs result v) npre →
            (dict_get n result = Some v →
             out = Raise (ConstraintViolationError k n))
            ∧ (dict_get n result = None → out = Raise (KeyError n))))
  ∧ (out = Returned ↔
     complete result countries
     ∧ Forall (clean result countries colors nd) result).
Proof.
  intros out. unfold out, check. split; [|split].
  - intros pre c post -> Hpre Hc.
    by rewrite (check_complete_missing _ _ _ _ Hpre Hc).
  - intros Hcomp pre k v post E Hpre.
    apply check_complete_Returned in Hcomp. rewrite Hcomp.
    destruct (check_items_first result countries colors pre k v post nd Hpre)
      as (nd' & Hs & Eo).
    rewrite <- E in Eo. rewrite Eo. simpl.
    unfold list_contains. split; [|split].
    + intros Hk. by rewrite bool_decide_eq_false_2.
    + intros Hk Hv. rewrite bool_decide_eq_true_2 by done. simpl.
      by rewrite bool_decide_eq_false_2.
    + intros Hk Hv npre n npost En Hnpre.
      rewrite !bool_decide_eq_true_2 by done. simpl.
      rewrite (surjective_pairing (dd_getitem nd' k)), dd_getitem_fst.
      rewrite Hs, En, (check_neighbors_first _ _ _ _ _ _ Hnpre).
      split; intros ->; [|done]. by rewrite bool_decide_eq_true_2.
  - rewrite <- check_complete_Returned.
    destruct (check_complete result countries) eqn:Ec.
    + rewrite check_items_Returned. tauto.
    + simpl. split; [done | by intros [? _]].
Qed.

Lemma check_outcome_witness :
  (check [("A", "red"); ("B", "blue")] ["A"; "B"] ["red"; "blue"]
     (list_to_map [("A", ["B"]); ("B", ["A"])])).1 = Returned.
Proof.
  apply (check_outcome [("A", "red"); ("B", "blue")] ["A"; "B"] ["red"; "blue"]
           (list_to_map [("A", ["B"]); ("B", ["A"])])).
  split; by_compute.
Defined.

(** ** Minimum remaining values (C6) *)

(** C6.  On a non-empty unassigned list, [mrv] returns the first variable,
    in the order of the list, whose number of legal values is the least
    over the list: every variable before it has strictly more legal values
    and every variable after it has at least as many.  A second call, on
    the instance as the first call left it, returns the same variable. *)
Theorem mrv_first_minimum V D G a :
  V ≠ [] →
  let csp := CSP_init V D G adjacent_c_constraint in
  let n u := length (possible_values csp u a).1 in
  ∃ c csp' pre post,
    mrv csp a = Some (c, csp') ∧
    unassigned csp = pre ++ c :: post ∧
    (∀ u, u ∈ pre → n c < n u) ∧
    (∀ u, u ∈ post → n c ≤ n u) ∧
    unassigned csp' = unassigned csp ∧
    ∃ csp'', mrv csp' a = Some (c, csp'').
Proof.
  intros HV csp n.
  assert (∀ u, n u = count csp a u) as En.
  { intros u. by apply count_possible_values. }
  destruct (mrv_spec csp a eq_refl HV)
    as (c & csp' & pre & post & E & Hq & Hu & H1 & H2).
  exists c, csp', pre, post. split; [done|]. split; [done|].
  split; [intros u Hu'; rewrite !En; auto|].
  split; [intros u Hu'; rewrite !En; auto|].
  assert (unassigned csp' = unassigned csp) as Eu.
  { unfold unassigned. apply (quiet_variables _ _ Hq). }
  split; [done|].
  assert (constraints csp' = adjacent_c_constraint) as Hc'.
  { by rewrite (quiet_constraints _ _ Hq). }
  destruct (mrv_spec csp' a Hc')
    as (c2 & csp2 & pre2 & post2 & E2 & _ & Hu2 & H3 & H4).
  { by rewrite Eu. }
  exists csp2. rewrite E2. do 2 f_equal.
  rewrite Eu in Hu2.
  apply (first_minimum_unique (count csp a) _ _ _ _ _ _ _ Hu2 Hu); try done.
  - intros u Hu'. rewrite <- !(count_quiet _ _ _ _ Hq). auto.
  - intros u Hu'. rewrite <- !(count_quiet _ _ _ _ Hq). auto.
Qed.

Lemma mrv_first_minimum_witness :
  ∃ c csp' pre post,
    mrv (CSP_init ["A"; "B"; "C"] ["r"; "g"] (list_to_map path)
           adjacent_c_constraint) [("A", "r")] = Some (c, csp') ∧
    ["A"; "B"; "C"] = pre ++ c :: post.
Proof.
  destruct (mrv_first_minimum ["A"; "B"; "C"] ["r"; "g"] (list_to_map path)
              [("A", "r")]) as (c & csp' & pre & post & E & Hu & _).
  - done.
  - by exists c, csp', pre, post.
Defined.

(** ** Unsatisfiable instances (C7) *)

(** C7, as stated, fails: with the single value blue and P listing Q as a
    conflict but not the reverse, no valid colouring exists and [bts]
    returns an assignment. *)
Lemma unsatisfiable_instance_gets_an_assignment :
  (∀ a, ¬ valid_coloring ["P"; "Q"] ["blue"]
            (list_to_map [("P", ["Q"]); ("Q", [])]) a)
  ∧ ∃ a w',
      bts 3 (CSP_init ["P"; "Q"] ["blue"]
               (list_to_map [("P", ["Q"]); ("Q", [])]) adjacent_c_constraint)
        None []
      = Some (Solution a, w').
Proof.
  split.
  - intros a [Hp Hv Hc].
    destruct (Hp "P") as [cp Ep]; [by_compute|].
    destruct (Hp "Q") as [cq Eq]; [by_compute|].
    pose proof (Hv _ _ Ep) as ->%list_elem_of_singleton.
    pose proof (Hv _ _ Eq) as ->%list_elem_of_singleton.
    apply (Hc "P" "Q" "blue"); try done; by_compute.
  - eexists _, _. vm_compute. reflexivity.
Qed.

(** C7.  For every instance with pairwise distinct variables and conflict
    lists symmetric between them, solved with the module-level table being
    the instance's own table: if no valid colouring exists, [bts] returns,
    and what it returns is the failure marker, neither an assignment nor an
    exception. *)
Theorem bts_unsatisfiable_returns_failure fuel V D G rs :
  NoDup V → symmetric_on V G → (∀ a, ¬ valid_coloring V D G a) →
  length V < fuel →
  ∃ w', bts fuel (CSP_init V D G adjacent_c_constraint) None rs
        = Some (Failure, w').
Proof.
  intros HV Hsym Hunsat Hf.
  destruct (bts_total fuel V D G None rs HV Hf) as (r & w' & E & Hne).
  destruct r as [a| |e].
  - exfalso. apply (Hunsat a). by eapply bts_sound_aux.
  - by exists w'.
  - by destruct (Hne e).
Qed.

Lemma bts_unsatisfiable_returns_failure_witness :
  ∃ w', bts 4 (CSP_init ["A"; "B"; "C"] ["r"; "g"] (list_to_map triangle)
                 adjacent_c_constraint) None [0; 1; 2; 3]
        = Some (Failure, w').
Proof.
  apply bts_unsatisfiable_returns_failure.
  - by_compute.
  - by_compute.
  - apply triangle_two_colors_unsatisfiable.
  - simpl. lia.
Defined.

(** ** Legal values (C8) *)

(** C8.  [possible_values] returns the domain values that no conflicting
    variable present in the assignment holds, in the order of the domain;
    the domain list of the instance is as it was; and a variable with an
    empty conflict list gets the whole domain, whatever the assignment. *)
Theorem possible_values_exact V D G country a :
  let csp := CSP_init V D G adjacent_c_constraint in
  (possible_values csp country a).1
  = List.filter
      (λ v, bool_decide (Forall (λ n, dict_get n a ≠ Some v) (G !!! country)))
      D
  ∧ domains (possible_values csp country a).2 = D
  ∧ (G !!! country = [] → (possible_values csp country a).1 = D).
Proof.
  intros csp.
  destruct (possible_values_spec csp country a eq_refl) as (csp' & -> & Hq).
  simpl. split; [|split].
  - apply List.filter_ext. intros v. apply legal_Forall.
  - apply (quiet_domains _ _ Hq).
  - intros Hnil. apply filter_all. intros v.
    unfold legal. simpl. by rewrite Hnil.
Qed.

Lemma possible_values_exact_witness :
  (possible_values
     (CSP_init ["A"; "I"] ["r"; "g"] (list_to_map [("A", ["I"]); ("I", [])])
        adjacent_c_constraint) "I" [("A", "r")]).1 = ["r"; "g"].
Proof.
  apply (possible_values_exact ["A"; "I"] ["r"; "g"]
           (list_to_map [("A", ["I"]); ("I", [])]) "I" [("A", "r")]).
  vm_compute. reflexivity.
Defined.

(** ** Validating twice (C9) *)

(** C9, as stated, fails: indexing the table with a key it does not have
    stores that key with an empty list, so a call of [check] on a table
    without an entry for A changes the table. *)
Lemma check_adds_key_to_table :
  check [("A", "red")] ["A"] ["red"] ∅ = (Returned, {["A" := []]})
  ∧ ({["A" := []]} : table) ≠ ∅.
Proof.
  split; [vm_compute; reflexivity|].
  intros H. apply (f_equal (λ m : table, m !! "A")) in H. by vm_compute in H.
Qed.

(** C9.  On a complete assignment whose entries are all clean, [check]
    returns silently, and so does a second call on the table the first call
    left.  A call leaves every conflict list as it was, and leaves the
    table itself unchanged when every key of the assignment has an entry in
    it.  The assignment, the variables and the domain are only read. *)
Theorem check_twice result countries colors nd :
  let first := check result countries colors nd in
  (complete result countries →
   Forall (clean result countries colors nd) result →
   first.1 = Returned ∧ (check result countries colors first.2).1 = Returned)
  ∧ same_lists nd first.2
  ∧ ((∀ k, k ∈ dict_keys result → is_Some (nd !! k)) → first.2 = nd).
Proof.
  intros first.
  assert (same_lists nd first.2) as Hs.
  { unfold first, check. destruct (check_complete result countries); [|done].
    apply check_items_table. }
  split; [|split; [done|]].
  - intros Hcomp Hclean.
    assert (∀ nd0, same_lists nd nd0 →
                   (check result countries colors nd0).1 = Returned) as H.
    { intros nd0 Hs0.
      apply (proj2 (proj2 (check_outcome result countries colors nd0))).
      split; [done|]. eapply Forall_impl; [done|].
      intros e. by apply clean_same_lists. }
    split; [by apply H | by apply H].
  - unfold first, check. destruct (check_complete result countries); [|done].
    apply check_items_table.
Qed.

Lemma check_twice_witness :
  let nd : table := list_to_map [("A", ["B"]); ("B", ["A"])] in
  let result := [("A", "red"); ("B", "blue")] in
  (check result ["A"; "B"] ["red"; "blue"] nd).1 = Returned
  ∧ (check result ["A"; "B"] ["red"; "blue"]
       (check result ["A"; "B"] ["red"; "blue"] nd).2).1 = Returned.
Proof.
  intros nd result.
  apply (check_twice result ["A"; "B"] ["red"; "blue"] nd).
  - by_compute.
  - by_compute.
Defined.

(** ** The two tables (C10) *)

(** C10.  When the module-level name [neighbors_dict] is bound to a table
    [g] other than the instance's table [nd]: the loop of [backtrack] skips
    or commits a colour by [g] alone; forward checking runs over the
    instance's list [nd[country]] and counts legal values, which
    [possible_values] computes from [nd]; and whenever the two tables
    disagree on whether [y] conflicts with [country], the test of the loop
    and membership among the legal values disagree on the assignment that
    gives [y] the colour. *)
Theorem loop_test_reads_module_table V D nd g a rs rec country color :
  let csp := CSP_init V D nd adjacent_c_constraint in
  let w := mkWorld a csp (Some g) rs in
  (no_neighbor_holds (g !!! country) color a = false →
   ∃ w0, try_color rec country color w = Some (Next, undo country w0)
         ∧ quiet w w0)
  ∧ (no_neighbor_holds (g !!! country) color a = true →
     ∀ l, list_remove country V = Some l →
     ∃ w3,
       w_assignment w3 = dict_setitem country color a ∧
       unassigned (w_csp w3) = l ∧
       try_color rec country color w =
         (if bool_decide
               (Forall (λ n, length (possible_values (w_csp w3) n
                                       (w_assignment w3)).1 ≠ 0)
                  (nd !!! country))
          then match rec w3 with
               | None => None
               | Some (Failure, w4) => Some (Next, undo country w4)
               | Some (r, w4) => Some (Return r, w4)
               end
          else Some (Return Failure, w3)))
  ∧ (possible_values csp country a).1
    = List.filter (λ v, no_neighbor_holds (nd !!! country) v a) D
  ∧ (∀ y, ¬ (y ∈ g !!! country ↔ y ∈ nd !!! country) → color ∈ D →
     no_neighbor_holds (g !!! country) color [(y, color)]
     ≠ bool_decide (color ∈ (possible_values csp country [(y, color)]).1)).
Proof.
  intros csp w. split; [|split; [|split]].
  - intros Hok. by apply try_color_skip.
  - intros Hok l Hl.
    destruct (try_color_commit rec country color w l eq_refl Hok Hl)
      as (w1 & w3 & Hq1 & Hq3 & E).
    exists w3. split; [|split].
    + rewrite (q_assignment _ _ Hq3). simpl. by rewrite (q_assignment _ _ Hq1).
    + by rewrite (q_unassigned _ _ Hq3).
    + rewrite E. erewrite bool_decide_ext; [done|].
      apply Forall_proper; [|done]. intros n.
      rewrite count_possible_values; [done|].
      rewrite (q_constraints _ _ Hq3). simpl. by rewrite (q_constraints _ _ Hq1).
  - by destruct (possible_values_spec csp country a eq_refl) as (csp' & -> & _).
  - intros y Hdiff Hcol.
    destruct (possible_values_spec csp country [(y, color)] eq_refl)
      as (csp' & -> & _).
    simpl. unfold legal. simpl.
    rewrite no_neighbor_holds_single. intros E.
    destruct (decide (y ∈ g !!! country)) as [Hg|Hg],
             (decide (y ∈ nd !!! country)) as [Hn|Hn]; [tauto| | |tauto].
    + rewrite bool_decide_eq_false_2 in E by tauto.
      rewrite bool_decide_eq_true_2 in E; [done|].
      apply elem_of_List_filter. split; [done|].
      rewrite no_neighbor_holds_single. by apply bool_decide_eq_true_2.
    + rewrite bool_decide_eq_true_2 in E by done.
      rewrite bool_decide_eq_false_2 in E; [done|].
      rewrite elem_of_List_filter, no_neighbor_holds_single.
      rewrite bool_decide_eq_true. tauto.
Qed.

Lemma loop_test_reads_module_table_witness :
  no_neighbor_holds ["B"] "red" [("B", "red")]
  ≠ bool_decide
      ("red" ∈ (possible_values
                  (CSP_init ["A"; "B"] ["red"; "blue"]
                     (list_to_map [("A", []); ("B", [])]) adjacent_c_constraint)
                  "A" [("B", "red")]).1).
Proof.
  destruct (loop_test_reads_module_table ["A"; "B"] ["red"; "blue"]
              (list_to_map [("A", []); ("B", [])])
              (list_to_map [("A", ["B"]); ("B", ["A"])])
              [] [] (λ _, None) "A" "red") as (_ & _ & _ & H).
  apply (H "B").
  - by_compute.
  - by_compute.
Defined.

(** * Further properties *)

(** ** Constraint, legal values and variable choice *)

(** X1.  The constraint function answers [True] exactly when no country
    in the conflict list of [count1] holds [color] in the assignment.  It
    leaves every conflict list as it was; the table itself is unchanged when
    [count1] is a key, and gains the key [count1] with an empty list (and the
    answer is [True]) when it is not. *)
Theorem adjacent_c_constraint_contract count1 color nd a :
  ((adjacent_c_constraint count1 color nd a).1 = true
   ↔ ∀ n, n ∈ nd !!! count1 → dict_get n a ≠ Some color)
  ∧ same_lists nd (adjacent_c_constraint count1 color nd a).2
  ∧ (is_Some (nd !! count1) → (adjacent_c_constraint count1 color nd a).2 = nd)
  ∧ (nd !! count1 = None →
     adjacent_c_constraint count1 color nd a = (true, <[count1 := []]> nd)).
Proof.
  rewrite adjacent_c_constraint_eq. simpl. split; [|split; [|split]].
  - apply no_neighbor_holds_true.
  - apply dd_getitem_same.
  - apply dd_getitem_present.
  - intros E. rewrite lookup_total_alt, E. simpl. unfold dd_getitem. by rewrite E.
Qed.

Lemma adjacent_c_constraint_contract_witness :
  adjacent_c_constraint "A" "red" ∅ [("B", "red")] = (true, {["A" := []]}).
Proof.
  apply (adjacent_c_constraint_contract "A" "red" ∅ [("B", "red")]).
  vm_compute. reflexivity.
Defined.

Lemma no_neighbor_holds_extends l v a a' :
  extends a a' → no_neighbor_holds l v a' = true → no_neighbor_holds l v a = true.
Proof.
  intros He. rewrite !no_neighbor_holds_true. intros H n Hn Hg.
  apply (H n Hn). by apply He.
Qed.

Lemma filter_sublist_impl (f g : string → bool) l :
  (∀ x, f x = true → g x = true) → sublist (List.filter f l) (List.filter g l).
Proof.
  intros H. induction l as [|x l IH]; simpl; [done|].
  destruct (f x) eqn:Ef.
  - rewrite (H x Ef). by constructor.
  - destruct (g x); [by constructor | done].
Qed.

(** X2.  The legal values of a country only shrink as the assignment
    grows: for an assignment [a'] that keeps every entry of [a], the list
    [possible_values] returns under [a'] is a sublist of the one under [a],
    which is itself a sublist of the domain list (order kept). *)
Theorem possible_values_shrink V D G country a a' :
  extends a a' →
  let csp := CSP_init V D G adjacent_c_constraint in
  sublist (possible_values csp country a').1 (possible_values csp country a).1
  ∧ sublist (possible_values csp country a).1 D.
Proof.
  intros He csp.
  destruct (possible_values_spec csp country a eq_refl) as (c1 & -> & _).
  destruct (possible_values_spec csp country a' eq_refl) as (c2 & -> & _).
  simpl. split.
  - apply filter_sublist_impl. intros v. by apply no_neighbor_holds_extends.
  - rewrite <- (filter_all (λ _, true) D) at 2 by done.
    by apply filter_sublist_impl.
Qed.

Lemma possible_values_shrink_witness :
  sublist
    (possible_values (CSP_init ["A"; "B"] ["r"; "g"] (list_to_map path)
                        adjacent_c_constraint) "B" [("A", "r")]).1
    (possible_values (CSP_init ["A"; "B"] ["r"; "g"] (list_to_map path)
                        adjacent_c_constraint) "B" []).1.
Proof.
  apply (possible_values_shrink ["A"; "B"] ["r"; "g"] (list_to_map path) "B"
           [] [("A", "r")]).
  intros k v H. discriminate H.
Defined.

Lemma no_neighbor_holds_setitem_other l v n x a :
  n ∉ l → no_neighbor_holds l v (dict_setitem n x a) = no_neighbor_holds l v a.
Proof.
  intros Hn. apply eq_true_iff_eq. rewrite !no_neighbor_holds_true.
  split; intros H m Hm.
  - specialize (H m Hm). rewrite dict_get_setitem in H.
    rewrite decide_False in H; [done|]. intros ->. done.
  - rewrite dict_get_setitem. rewrite decide_False; [by apply H|]. intros ->. done.
Qed.

Lemma no_neighbor_holds_delitem_other l v n a :
  NoDup (dict_keys a) → n ∉ l →
  no_neighbor_holds l v (dict_delitem n a) = no_neighbor_holds l v a.
Proof.
  intros Hnd Hn. apply eq_true_iff_eq. rewrite !no_neighbor_holds_true.
  split; intros H m Hm.
  - specialize (H m Hm). rewrite dict_get_delitem in H by done.
    rewrite decide_False in H; [done|]. intros ->. done.
  - rewrite dict_get_delitem by done.
    rewrite decide_False; [by apply H|]. intros ->. done.
Qed.

(** X3.  Assigning a country that is not in the conflict list of
    [country], or deleting its entry, does not change the values
    [possible_values] returns for [country]. *)
Theorem possible_values_ignores_strangers V D G country n x a :
  n ∉ G !!! country →
  let csp := CSP_init V D G adjacent_c_constraint in
  (possible_values csp country (dict_setitem n x a)).1
  = (possible_values csp country a).1
  ∧ (NoDup (dict_keys a) →
     (possible_values csp country (dict_delitem n a)).1
     = (possible_values csp country a).1).
Proof.
  intros Hn csp.
  destruct (possible_values_spec csp country a eq_refl) as (c1 & -> & _).
  destruct (possible_values_spec csp country (dict_setitem n x a) eq_refl)
    as (c2 & -> & _).
  destruct (possible_values_spec csp country (dict_delitem n a) eq_refl)
    as (c3 & -> & _).
  simpl. split.
  - apply List.filter_ext. intros v. by apply no_neighbor_holds_setitem_other.
  - intros Hnd. apply List.filter_ext. intros v.
    by apply no_neighbor_holds_delitem_other.
Qed.

Lemma possible_values_ignores_strangers_witness :
  (possible_values (CSP_init ["A"; "B"; "C"] ["r"; "g"] (list_to_map path)
                      adjacent_c_constraint) "A" (dict_setitem "C" "r" [])).1
  = (possible_values (CSP_init ["A"; "B"; "C"] ["r"; "g"] (list_to_map path)
                        adjacent_c_constraint) "A" []).1.
Proof.
  apply (possible_values_ignores_strangers ["A"; "B"; "C"] ["r"; "g"]
           (list_to_map path) "A" "C" "r" []).
  by_compute.
Defined.

(** * [possible.remove] always finds its value *)

Lemma prune_checked_ok self country a values possible :
  values ⊆+ possible →
  prune_checked self country a values possible
  = Some (prune self country a values possible).
Proof.
  revert self possible. induction values as [|v values IH]; intros self possible Hsub;
    simpl; [done|].
  destruct (constraints self country v (neighbors_dict self) a) as [ok nd].
  destruct ok.
  - apply IH. etrans; [|exact Hsub]. by apply submseteq_cons.
  - apply submseteq_cons_l in Hsub as (k' & Hp & Hk).
    assert (v ∈ possible) as Hin by (rewrite Hp; left).
    destruct (list_remove_Some _ _ Hin) as [p Hr]. rewrite Hr. simpl.
    apply IH. pose proof (list_remove_perm _ _ _ Hr) as Hp'.
    rewrite Hp in Hp'. apply Permutation_cons_inv in Hp'. by rewrite <- Hp'.
Qed.

(** X4.  For any constraint function, [possible.remove(value)] in
    [possible_values] always finds its value: the method never raises
    [ValueError], also when the domain list holds a value twice. *)
Theorem possible_values_never_misses self country a :
  possible_values_checked self country a = Some (possible_values self country a).
Proof. by apply prune_checked_ok. Qed.

(** * [mrv] for any constraint function *)

Lemma prune_frame self country a values possible :
  let r := prune self country a values possible in
  variables r.2 = variables self ∧ domains r.2 = domains self
  ∧ constraints r.2 = constraints self.
Proof.
  revert self possible. induction values as [|v values IH]; intros self possible;
    simpl; [done|].
  destruct (constraints self country v (neighbors_dict self) a) as [ok nd].
  destruct ok.
  - apply (IH (set_neighbors_dict nd self)).
  - apply (IH (set_neighbors_dict nd self)).
Qed.

Lemma possible_values_frame self country a :
  variables (possible_values self country a).2 = variables self
  ∧ domains (possible_values self country a).2 = domains self
  ∧ constraints (possible_values self country a).2 = constraints self.
Proof. apply prune_frame. Qed.

Lemma mrv_loop_frame csp a values country minimum :
  let r := mrv_loop csp a values country minimum in
  (r.1 = country ∨ r.1 ∈ values)
  ∧ variables r.2 = variables csp ∧ domains r.2 = domains csp
  ∧ constraints r.2 = constraints csp.
Proof.
  revert csp country minimum.
  induction values as [|v values IH]; intros csp country minimum; simpl.
  - by split; [left|].
  - pose proof (possible_values_frame csp v a) as (E1 & E2 & E3).
    destruct (possible_values csp v a) as [p csp1]. simpl in *.
    destruct (length p <? minimum).
    + pose proof (possible_values_frame csp1 v a) as (F1 & F2 & F3).
      destruct (possible_values csp1 v a) as [p2 csp2]. simpl in *.
      destruct (IH csp2 v (length p2)) as (H & G1 & G2 & G3).
      split; [|split; [|split]]; try congruence.
      right. destruct H as [->|H]; [left | by right].
    + destruct (IH csp1 country minimum) as (H & G1 & G2 & G3).
      split; [|split; [|split]]; try congruence.
      destruct H as [->|H]; [by left | right; by right].
Qed.

(** X5.  For any constraint function, [mrv] fails (line 72 raises
    [IndexError]) exactly when the unassigned list is empty; otherwise the
    country it returns is in the unassigned list, and the call leaves the
    instance's variables, domains and constraint function as they were. *)
Theorem mrv_returns_an_unassigned_variable csp a :
  (mrv csp a = None ↔ unassigned csp = [])
  ∧ ∀ c csp', mrv csp a = Some (c, csp') →
      c ∈ unassigned csp ∧ variables csp' = variables csp
      ∧ domains csp' = domains csp ∧ constraints csp' = constraints csp.
Proof.
  unfold mrv. destruct (unassigned csp) as [|x l] eqn:Eu.
  - split; [done|]. by intros c csp'.
  - pose proof (possible_values_frame csp x a) as (E1 & E2 & E3).
    destruct (possible_values csp x a) as [p csp1]. simpl in *.
    split; [done|]. intros c csp' [= E].
    pose proof (mrv_loop_frame csp1 a (unassigned csp1) x (length p)) as H.
    rewrite E in H. simpl in H. destruct H as (H & G1 & G2 & G3).
    assert (unassigned csp1 = x :: l) as Eu1 by (unfold unassigned in *; congruence).
    rewrite Eu1 in H.
    split; [|split; [|split]]; try congruence.
    destruct H as [->|H]; [left | done].
Qed.

Lemma mrv_returns_an_unassigned_variable_witness :
  let csp := CSP_init ["A"; "B"] ["r"; "g"] (list_to_map path)
               adjacent_c_constraint in
  "B" ∈ unassigned csp.
Proof.
  intros csp.
  apply (proj2 (mrv_returns_an_unassigned_variable csp [("A", "r")]) "B"
           (default ("", csp) (mrv csp [("A", "r")])).2).
  vm_compute. reflexivity.
Defined.

Lemma no_neighbor_holds_nil l v : no_neighbor_holds l v [] = true.
Proof. by induction l. Qed.

(** X6.  On the empty assignment [mrv] returns the first variable:
    every variable then has the whole domain as legal values, and only a
    strictly smaller count replaces the first. *)
Theorem mrv_first_call_picks_first_variable x V D G :
  ∃ csp', mrv (CSP_init (x :: V) D G adjacent_c_constraint) [] = Some (x, csp').
Proof.
  set (csp := CSP_init (x :: V) D G adjacent_c_constraint).
  destruct (mrv_spec csp [] eq_refl) as (c & csp' & pre & post & E & _ & Hu & H1 & _).
  { done. }
  exists csp'. rewrite E. do 2 f_equal.
  assert (∀ u, count csp [] u = length D) as Hc.
  { intros u. unfold count. rewrite filter_all; [done|].
    intros v. apply no_neighbor_holds_nil. }
  destruct pre as [|y pre].
  - simpl in Hu. unfold unassigned in Hu. simpl in Hu. congruence.
  - specialize (H1 y). rewrite !Hc in H1. exfalso.
    assert (y ∈ y :: pre) as Hy by left. specialize (H1 Hy). lia.
Qed.

(** X7.  The forward-checking loop of lines 112-115 runs to its end
    exactly when every country in the list it walks has at least one legal
    value under the assignment; otherwise it stops at line 115.  It changes
    nothing of the instance but possibly the keys of the table. *)
Theorem forward_checking_dead_end V D G l a :
  let csp := CSP_init V D G adjacent_c_constraint in
  ((forward_checking l a csp).1 = true
   ↔ ∀ n, n ∈ l → (possible_values csp n a).1 ≠ [])
  ∧ csp_quiet csp (forward_checking l a csp).2.
Proof.
  intros csp.
  destruct (forward_checking_spec l a csp eq_refl) as (csp' & -> & Hq).
  simpl. split; [|done].
  rewrite bool_decide_eq_true, Forall_forall.
  split; intros H n Hn; specialize (H n Hn).
  - rewrite <- count_possible_values in H by done.
    intros E. by rewrite E in H.
  - rewrite <- count_possible_values by done.
    intros E. apply H. by apply length_zero_iff_nil.
Qed.

(** * One pass that does not recurse *)

Lemma try_color_without_recursion country color w x :
  try_color (λ _, None) country color w = Some x →
  ∀ rec, try_color rec country color w = Some x.
Proof. intros E rec. by apply (try_color_mono (λ _, None) rec). Qed.

Lemma List_filter_length_perm (f : string → bool) l l' :
  l ≡ₚ l' → length (List.filter f l) = length (List.filter f l').
Proof.
  induction 1 as [|x l l' _ IH|x y l|l1 l2 l3 _ IH1 _ IH2]; simpl.
  - done.
  - destruct (f x); simpl; by rewrite IH.
  - by destruct (f x), (f y).
  - by rewrite IH1.
Qed.

Lemma count_world_quiet w w' a n :
  quiet w w' → count (w_csp w') a n = count (w_csp w) a n.
Proof.
  intros Hq. unfold count.
  rewrite (List_filter_length_perm _ _ _ (q_domains _ _ Hq)).
  f_equal. apply List.filter_ext. intros v. unfold legal.
  by rewrite (q_table _ _ Hq).
Qed.

(** X8.  When the colour passes the test of line 107 and some country
    in the conflict list of [country] is left without a legal value once
    [country] holds [color], the loop body returns ['Failure'] from line 115
    without a recursive call: the result is the same whatever the recursive
    call would do, the entry [country: color] stays in the assignment and
    [country] stays out of the unassigned list. *)
Theorem dead_end_returns_without_recursing country color w l :
  cadj w → loop_test country color w = true →
  list_remove country (unassigned (w_csp w)) = Some l →
  (∃ n, n ∈ neighbors_dict (w_csp w) !!! country ∧
        (possible_values (w_csp w) n
           (dict_setitem country color (w_assignment w))).1 = []) →
  ∃ w3,
    w_assignment w3 = dict_setitem country color (w_assignment w) ∧
    unassigned (w_csp w3) = l ∧
    ∀ rec, try_color rec country color w = Some (Return Failure, w3).
Proof.
  intros Hc Hok Hl (n & Hn & Hnil).
  destruct (try_color_commit (λ _, None) country color w l Hc Hok Hl)
    as (w1 & w3 & Hq1 & Hq3 & E).
  assert (w_assignment w3 = dict_setitem country color (w_assignment w)) as Ea.
  { rewrite (q_assignment _ _ Hq3). simpl. by rewrite (q_assignment _ _ Hq1). }
  exists w3. split; [done|]. split.
  - by rewrite (q_unassigned _ _ Hq3).
  - apply try_color_without_recursion.
    rewrite E. rewrite bool_decide_eq_false_2; [done|].
    rewrite Forall_forall. intros H. apply (H n Hn).
    rewrite (count_world_quiet _ _ _ _ Hq3).
    change (count (w_csp (commit country color l w1)) (w_assignment w3) n)
      with (count (w_csp w1) (w_assignment w3) n).
    rewrite (count_world_quiet _ _ _ _ Hq1), Ea.
    by rewrite <- count_possible_values, Hnil.
Qed.

Lemma dead_end_returns_without_recursing_witness :
  ∃ w3,
    w_assignment w3 = [("A", "red")] ∧ unassigned (w_csp w3) = ["B"] ∧
    ∀ rec,
      try_color rec "A" "red"
        (start (CSP_init ["A"; "B"] ["red"]
                  (list_to_map [("A", ["B"]); ("B", ["A"])])
                  adjacent_c_constraint) None [])
      = Some (Return Failure, w3).
Proof.
  apply (dead_end_returns_without_recursing "A" "red"
    (start (CSP_init ["A"; "B"] ["red"]
              (list_to_map [("A", ["B"]); ("B", ["A"])])
              adjacent_c_constraint) None []) ["B"]).
  - reflexivity.
  - vm_compute. reflexivity.
  - reflexivity.
  - exists "B". split; [by_compute | vm_compute; reflexivity].
Defined.

(** X9.  A colour that fails the test of line 107, for a country that is
    not in the assignment, is passed over: the loop goes on to the next
    colour without a recursive call, with the assignment, the unassigned
    list and every conflict list as they were. *)
Theorem inconsistent_colour_is_skipped country color w :
  cadj w → loop_test country color w = false →
  dict_contains country (w_assignment w) = false →
  ∃ w0, quiet w w0 ∧ ∀ rec, try_color rec country color w = Some (Next, w0).
Proof.
  intros Hc Hok Hin.
  destruct (try_color_skip (λ _, None) country color w Hc Hok) as (w0 & E & Hq).
  exists w0. split; [done|]. apply try_color_without_recursion.
  rewrite E. unfold undo. by rewrite (q_assignment _ _ Hq), Hin.
Qed.

Lemma inconsistent_colour_is_skipped_witness :
  ∃ w0, ∀ rec,
    try_color rec "B" "red"
      (mkWorld [("A", "red")]
         (CSP_init ["B"] ["red"] (list_to_map [("A", ["B"]); ("B", ["A"])])
            adjacent_c_constraint) None [])
    = Some (Next, w0).
Proof.
  destruct (inconsistent_colour_is_skipped "B" "red"
    (mkWorld [("A", "red")]
       (CSP_init ["B"] ["red"] (list_to_map [("A", ["B"]); ("B", ["A"])])
          adjacent_c_constraint) None [])) as (w0 & _ & H).
  - reflexivity.
  - vm_compute. reflexivity.
  - vm_compute. reflexivity.
  - by exists w0.
Defined.

(** * Whole searches *)

Lemma step_tables w w' :
  step w w' →
  same_lists (neighbors_dict (w_csp w)) (neighbors_dict (w_csp w'))
  ∧ same_lists (module_table w) (module_table w').
Proof.
  intros [w1 w2 Hq|w1 c v l _ _ _|w1 c Hin].
  - split; [apply (q_table _ _ Hq) | apply (q_module _ _ Hq)].
  - by split.
  - unfold undo. rewrite Hin. by split.
Qed.

Lemma reach_tables w w' :
  reach w w' →
  same_lists (neighbors_dict (w_csp w)) (neighbors_dict (w_csp w'))
  ∧ same_lists (module_table w) (module_table w').
Proof.
  induction 1 as [|w1 w2 w3 Hs _ [IH1 IH2]]; [done|].
  destruct (step_tables _ _ Hs) as [H1 H2].
  split; by eapply same_lists_trans.
Qed.

Lemma bts_never_raises fuel V D G g rs r w' :
  NoDup V →
  bts fuel (CSP_init V D G adjacent_c_constraint) g rs = Some (r, w') →
  ∀ e, r ≠ Raised e.
Proof.
  intros HV E.
  destruct (bts_total (fuel `max` S (length V)) V D G g rs HV) as (r2 & w2 & E2 & Hne).
  { lia. }
  unfold bts in *.
  rewrite (backtrack_fuel_mono fuel _ _ _ (Nat.le_max_l _ _) E) in E2.
  by injection E2 as <- <-.
Qed.

Lemma bts_reach fuel V D G g rs r w' :
  bts fuel (CSP_init V D G adjacent_c_constraint) g rs = Some (r, w') →
  (∀ e, r ≠ Raised e) →
  reach (start (CSP_init V D G adjacent_c_constraint) g rs) w' ∧ final r w'.
Proof.
  intros E Hne. apply backtrack_post in E; [|done].
  destruct r as [a| |e]; [done|done|by destruct (Hne e)].
Qed.

(** X10.  On distinct variables, with recursion depth above the
    number of variables, [bts] returns either ['Failure'] or an assignment:
    neither [IndexError] from [mrv] nor [ValueError] from
    [csp.unassigned.remove] is raised, whatever the tables and the random
    draws. *)
Theorem bts_terminates fuel V D G g rs :
  NoDup V → length V < fuel →
  ∃ r w',
    bts fuel (CSP_init V D G adjacent_c_constraint) g rs = Some (r, w')
    ∧ (r = Failure ∨ ∃ a, r = Solution a).
Proof.
  intros HV Hf. destruct (bts_total fuel V D G g rs HV Hf) as (r & w' & E & Hne).
  exists r, w'. split; [done|].
  destruct r as [a| |e]; [right; by exists a | by left | by destruct (Hne e)].
Qed.

Lemma bts_terminates_witness :
  ∃ r w',
    bts 4 (CSP_init ["A"; "B"; "C"] ["r"; "g"] (list_to_map path)
             adjacent_c_constraint) (Some ∅) [5; 7]
    = Some (r, w')
    ∧ (r = Failure ∨ ∃ a, r = Solution a).
Proof.
  apply bts_terminates.
  - by_compute.
  - simpl. lia.
Defined.

(** X11.  On distinct variables, when [bts] returns, the unassigned
    list and the keys of the assignment are duplicate-free and disjoint, and
    together they are exactly the initial variables. *)
Theorem bts_keeps_partition fuel V D G g rs r w' :
  NoDup V →
  bts fuel (CSP_init V D G adjacent_c_constraint) g rs = Some (r, w') →
  NoDup (unassigned (w_csp w'))
  ∧ NoDup (dict_keys (w_assignment w'))
  ∧ (∀ x, x ∈ unassigned (w_csp w') → x ∉ dict_keys (w_assignment w'))
  ∧ (∀ x, x ∈ unassigned (w_csp w') ∨ x ∈ dict_keys (w_assignment w') ↔ x ∈ V).
Proof.
  intros HV E.
  destruct (bts_partition fuel V D G g rs r w' HV E) as [[_ H1 H2 H3] H4].
  { by eapply bts_never_raises. }
  done.
Qed.

Lemma bts_keeps_partition_witness :
  let w' := world_of (run 3 ["A"; "B"] ["red"] [("A", ["B"]); ("B", ["A"])] []) in
  NoDup (unassigned (w_csp w'))
  ∧ NoDup (dict_keys (w_assignment w'))
  ∧ (∀ x, x ∈ unassigned (w_csp w') → x ∉ dict_keys (w_assignment w'))
  ∧ (∀ x, x ∈ unassigned (w_csp w') ∨ x ∈ dict_keys (w_assignment w')
          ↔ x ∈ ["A"; "B"]).
Proof.
  intros w'.
  refine (bts_keeps_partition 3 ["A"; "B"] ["red"]
            (list_to_map [("A", ["B"]); ("B", ["A"])]) None [] Failure w' _ _).
  - by_compute.
  - vm_compute. reflexivity.
Defined.

(** X12.  When [bts] returns an assignment, that assignment is the
    dictionary the search filled, and the instance's variables list is empty:
    running [bts] on the same instance again returns the empty assignment at
    once. *)
Theorem solved_instance_is_spent fuel V D G g rs a w' :
  bts fuel (CSP_init V D G adjacent_c_constraint) g rs = Some (Solution a, w') →
  a = w_assignment w' ∧ variables (w_csp w') = []
  ∧ ∀ fuel' g' rs',
      bts (S fuel') (w_csp w') g' rs'
      = Some (Solution [], start (w_csp w') g' rs').
Proof.
  intros E. apply bts_reach in E as [_ Hf]; [|done].
  destruct (Hf a eq_refl) as [-> Hu]. split; [done|]. split; [done|].
  intros fuel' g' rs'. unfold bts. simpl. by rewrite Hu.
Qed.

Lemma solved_instance_is_spent_witness :
  let w' := world_of (run 4 ["A"; "B"; "C"] ["red"; "blue"] path [0]) in
  variables (w_csp w') = []
  ∧ bts 1 (w_csp w') None [] = Some (Solution [], start (w_csp w') None []).
Proof.
  intros w'.
  destruct (solved_instance_is_spent 4 ["A"; "B"; "C"] ["red"; "blue"]
              (list_to_map path) None [0]
              (solution_of (run 4 ["A"; "B"; "C"] ["red"; "blue"] path [0])) w')
    as (_ & Hv & H).
  - vm_compute. reflexivity.
  - split; [exact Hv | apply H].
Defined.

(** X13.  On distinct variables, when [bts] returns, the instance's
    domain list is a permutation of the initial one: the shuffles of line 103
    only reorder it. *)
Theorem bts_only_reorders_domains fuel V D G g rs r w' :
  NoDup V →
  bts fuel (CSP_init V D G adjacent_c_constraint) g rs = Some (r, w') →
  domains (w_csp w') ≡ₚ D.
Proof.
  intros HV E. apply bts_reach in E as [Hr _]; [|by eapply bts_never_raises].
  apply (reach_domains _ _ Hr).
Qed.

Lemma bts_only_reorders_domains_witness :
  domains (w_csp (world_of (run 2 ["A"] ["red"; "blue"] [("A", [])] [0])))
  ≡ₚ ["red"; "blue"].
Proof.
  apply (bts_only_reorders_domains 2 ["A"] ["red"; "blue"]
           (list_to_map [("A", [])]) None [0]
           (Solution [("A", "blue")])).
  - by_compute.
  - vm_compute. reflexivity.
Defined.

(** X14.  On distinct variables, when [bts] returns, every conflict
    list of the instance's table and of the module-level table is as it was
    at the start, and the constraint function of the instance is unchanged. *)
Theorem bts_keeps_conflict_lists fuel V D G g rs r w' :
  NoDup V →
  bts fuel (CSP_init V D G adjacent_c_constraint) g rs = Some (r, w') →
  same_lists G (neighbors_dict (w_csp w'))
  ∧ same_lists (default G g) (module_table w')
  ∧ constraints (w_csp w') = adjacent_c_constraint.
Proof.
  intros HV E.
  apply bts_reach in E as [Hr _]; [|by eapply bts_never_raises].
  destruct (reach_tables _ _ Hr) as [H1 H2]. split; [done|]. split.
  - by destruct g.
  - by apply (reach_cadj _ _ Hr).
Qed.

Lemma bts_keeps_conflict_lists_witness :
  let o := run 4 ["A"; "B"; "C"] ["red"; "blue"] path [0] in
  same_lists (list_to_map path) (neighbors_dict (w_csp (world_of o)))
  ∧ same_lists (list_to_map path) (module_table (world_of o))
  ∧ constraints (w_csp (world_of o)) = adjacent_c_constraint.
Proof.
  intros o.
  refine (bts_keeps_conflict_lists 4 ["A"; "B"; "C"] ["red"; "blue"]
            (list_to_map path) None [0] (Solution (solution_of o))
            (world_of o) _ _).
  - by_compute.
  - vm_compute. reflexivity.
Defined.

Lemma start_inv_module V D nd g rs :
  inv V D g (start (CSP_init V D nd adjacent_c_constraint) (Some g) rs).
Proof.
  split; simpl; try done.
  - apply NoDup_nil_2.
  - intros x Hx. by left.
  - intros x [Hx|Hx]; [done|]. by apply elem_of_nil in Hx.
Qed.

(** X15.  When the module-level name [neighbors_dict] is bound to a
    table [g] of its own, symmetric on the variables, an assignment [bts]
    returns is a valid colouring for [g], whatever the table [nd] of the
    instance is. *)
Theorem bts_sound_for_module_table fuel V D nd g rs a w' :
  symmetric_on V g →
  bts fuel (CSP_init V D nd adjacent_c_constraint) (Some g) rs
  = Some (Solution a, w') →
  valid_coloring V D g a.
Proof.
  intros Hsym E. apply bts_reach in E as [Hr Hf]; [|done].
  destruct (Hf a eq_refl) as [-> Hu].
  pose proof (proj1 (symmetric_on_spec _ _) Hsym) as Hsym'.
  pose proof (reach_inv V D g Hsym' _ _ Hr (start_inv_module V D nd g rs)) as
    [Hk Hcov Hkn Hval Hdom Hmod Hcons].
  split.
  - intros x Hx. apply dict_keys_get. destruct (Hcov x Hx) as [H|H]; [|done].
    rewrite Hu in H. by apply elem_of_nil in H.
  - done.
  - intros x y c _ _ Hne Hy Hx. by apply (Hcons x y c).
Qed.

Lemma bts_sound_for_module_table_witness :
  valid_coloring ["A"; "B"] ["red"; "blue"]
    (list_to_map [("A", ["B"]); ("B", ["A"])])
    (solution_of
       (bts 3 (CSP_init ["A"; "B"] ["red"; "blue"]
                 (list_to_map [("A", []); ("B", [])]) adjacent_c_constraint)
          (Some (list_to_map [("A", ["B"]); ("B", ["A"])])) [])).
Proof.
  apply (bts_sound_for_module_table 3 ["A"; "B"] ["red"; "blue"]
           (list_to_map [("A", []); ("B", [])])
           (list_to_map [("A", ["B"]); ("B", ["A"])]) [] _
           (world_of
              (bts 3 (CSP_init ["A"; "B"] ["red"; "blue"]
                        (list_to_map [("A", []); ("B", [])]) adjacent_c_constraint)
                 (Some (list_to_map [("A", ["B"]); ("B", ["A"])])) []))).
  - by_compute.
  - vm_compute. reflexivity.
Defined.

(** X16.  On distinct variables and a symmetric table, when [bts]
    returns ['Failure'] the entries left in the assignment name variables
    only, hold domain values only, and no entry holds the value of an entry
    in its conflict list. *)
Theorem failure_leaves_consistent_assignment fuel V D G rs w' :
  NoDup V → symmetric_on V G →
  bts fuel (CSP_init V D G adjacent_c_constraint) None rs = Some (Failure, w') →
  (∀ k, k ∈ dict_keys (w_assignment w') → k ∈ V)
  ∧ (∀ k v, dict_get k (w_assignment w') = Some v → v ∈ D)
  ∧ (∀ x y v, x ≠ y → y ∈ G !!! x →
       dict_get x (w_assignment w') = Some v →
       dict_get y (w_assignment w') ≠ Some v).
Proof.
  intros HV Hsym E. apply bts_reach in E as [Hr _]; [|done].
  pose proof (proj1 (symmetric_on_spec _ _) Hsym) as Hsym'.
  pose proof (reach_inv V D G Hsym' _ _ Hr (start_inv V D G rs)) as
    [Hk Hcov Hkn Hval Hdom Hmod Hcons].
  split; [|split].
  - intros k Hin. apply Hkn. by right.
  - done.
  - intros x y v Hne Hy Hx. by apply (Hcons x y v).
Qed.

Lemma failure_leaves_consistent_assignment_witness :
  let V := ["X"; "Q"; "P"; "V"; "W"] in
  let D := ["r"; "g"; "b"] in
  let w' := world_of (run 6 V D kite [0; 0; 1; 1; 0; 1; 1; 0]) in
  (∀ k, k ∈ dict_keys (w_assignment w') → k ∈ V)
  ∧ (∀ k v, dict_get k (w_assignment w') = Some v → v ∈ D)
  ∧ (∀ x y v, x ≠ y → y ∈ (list_to_map kite : table) !!! x →
       dict_get x (w_assignment w') = Some v →
       dict_get y (w_assignment w') ≠ Some v).
Proof.
  intros V D w'.
  refine (failure_leaves_consistent_assignment 6 V D (list_to_map kite)
            [0; 0; 1; 1; 0; 1; 1; 0] w' _ _ _).
  - by_compute.
  - by_compute.
  - vm_compute. reflexivity.
Defined.

(** * An empty domain *)

Lemma mrv_loop_empty_domain csp a values country :
  domains csp = [] → mrv_loop csp a values country 0 = (country, csp).
Proof.
  intros Hd. induction values as [|v values IH]; simpl; [done|].
  unfold possible_values. rewrite Hd. simpl. exact IH.
Qed.

(** X17.  With an empty domain list and at least one variable, [bts]
    returns ['Failure'] without changing anything, for any constraint
    function. *)
Theorem bts_empty_domain fuel x V G c g rs :
  bts (S fuel) (CSP_init (x :: V) [] G c) g rs
  = Some (Failure, start (CSP_init (x :: V) [] G c) g rs).
Proof.
  unfold bts. simpl. unfold mrv. simpl.
  rewrite mrv_loop_empty_domain by done. reflexivity.
Qed.

(** * What the validator accepts *)

Lemma check_Returned_clean result countries colors nd :
  (check result countries colors nd).1 = Returned →
  complete result countries ∧ Forall (clean result countries colors nd) result.
Proof.
  unfold check. intros E.
  destruct (check_complete result countries) eqn:Ec; [|done].
  apply check_complete_Returned in Ec. simpl in E.
  by apply check_items_Returned in E.
Qed.

(** X18.  An assignment [check] accepts is a valid colouring of the
    countries; each of its keys is a country; and every name in the conflict
    list of any of its keys is itself a key, with a different value. *)
Theorem check_accepts_only_valid result countries colors nd :
  (check result countries colors nd).1 = Returned →
  valid_coloring countries colors nd result
  ∧ (∀ k, k ∈ dict_keys result → k ∈ countries)
  ∧ (∀ k v n, (k, v) ∈ result → n ∈ nd !!! k →
       is_Some (dict_get n result) ∧ dict_get n result ≠ Some v).
Proof.
  intros [Ec E]%check_Returned_clean.
  unfold complete in Ec. rewrite Forall_forall in Ec. rewrite Forall_forall in E.
  split; [split|split].
  - intros x Hx. apply dict_keys_get. by apply Ec.
  - intros k c Hk. apply dict_get_Some_elem in Hk.
    by destruct (E _ Hk) as (_ & ? & _).
  - intros x y c _ _ _ Hy Hx. apply dict_get_Some_elem in Hx.
    destruct (E _ Hx) as (_ & _ & Hn). simpl in Hn.
    rewrite Forall_forall in Hn. by destruct (Hn y Hy).
  - intros k [v Hk]%dict_keys_get. apply dict_get_Some_elem in Hk.
    by destruct (E _ Hk) as (? & _).
  - intros k v n Hk Hn. destruct (E _ Hk) as (_ & _ & H). simpl in H.
    rewrite Forall_forall in H. by apply H.
Qed.

Lemma check_accepts_only_valid_witness :
  valid_coloring ["A"; "B"] ["red"; "blue"]
    (list_to_map [("A", ["B"]); ("B", ["A"])]) [("A", "red"); ("B", "blue")].
Proof.
  apply (check_accepts_only_valid [("A", "red"); ("B", "blue")] ["A"; "B"]
           ["red"; "blue"] (list_to_map [("A", ["B"]); ("B", ["A"])])).
  vm_compute. reflexivity.
Defined.

Lemma Forall_closed V G x y :
  closed_on V G → x ∈ V → y ∈ G !!! x → y ∈ V.
Proof.
  unfold closed_on. rewrite Forall_forall. intros H Hx Hy.
  specialize (H x Hx). rewrite Forall_forall in H. by apply H.
Qed.

Lemma valid_coloring_clean V D G D' G' a :
  valid_coloring V D G a → NoDup (dict_keys a) →
  (∀ k, k ∈ dict_keys a → k ∈ V) →
  closed_on V G → irreflexive_on V G →
  D ≡ₚ D' → same_lists G G' →
  complete a V ∧ Forall (clean a V D' G') a.
Proof.
  intros [Hp Hv Hc] Hnd Hk Hcl Hir HD HG. split.
  - apply Forall_forall. intros x Hx. apply dict_keys_get. by apply Hp.
  - apply Forall_forall. intros [k v] Hin.
    assert (k ∈ V) as HkV.
    { apply Hk. apply list_elem_of_fmap. by exists (k, v). }
    pose proof (dict_elem_get _ _ _ Hnd Hin) as Hg.
    split; [done|]. split; simpl.
    + rewrite <- HD. by eapply Hv.
    + apply Forall_forall. intros n Hn. rewrite HG in Hn.
      assert (n ∈ V) as HnV by (by eapply Forall_closed).
      split; [by apply Hp|].
      apply (Hc k n v); try done. intros ->.
      unfold irreflexive_on in Hir. rewrite Forall_forall in Hir.
      by apply (Hir n HnV).
Qed.

(** X19.  [check] accepts every valid colouring whose keys are
    countries, when every conflict list of a country names countries only
    and no country lists itself. *)
Theorem check_accepts_valid V D G a :
  valid_coloring V D G a → NoDup (dict_keys a) →
  (∀ k, k ∈ dict_keys a → k ∈ V) →
  closed_on V G → irreflexive_on V G →
  (check a V D G).1 = Returned.
Proof.
  intros Hv Hnd Hk Hcl Hir.
  destruct (valid_coloring_clean V D G D G a Hv Hnd Hk Hcl Hir) as [H1 H2];
    [done|done|].
  unfold check. apply check_complete_Returned in H1. rewrite H1.
  by apply check_items_Returned.
Qed.

Lemma check_accepts_valid_witness :
  (check [("A", "blue"); ("B", "red"); ("C", "blue")] ["A"; "B"; "C"]
     ["red"; "blue"] (list_to_map path)).1 = Returned.
Proof.
  apply check_accepts_valid.
  - apply valid_coloring_dec_aux; by_compute.
  - by_compute.
  - intros k Hk.
    repeat (apply elem_of_cons in Hk as [->|Hk]; [by_compute|]).
    by apply elem_of_nil in Hk.
  - by_compute.
  - by_compute.
Defined.

(** X20.  On a table that is symmetric, names variables only and in
    which no variable lists itself, every assignment [bts] returns passes
    [check] when [check] is given the variables, and the domain list and the
    table as the search left them. *)
Theorem bts_result_passes_check fuel V D G rs a w' :
  symmetric_on V G → closed_on V G → irreflexive_on V G →
  bts fuel (CSP_init V D G adjacent_c_constraint) None rs
  = Some (Solution a, w') →
  (check a V (domains (w_csp w')) (neighbors_dict (w_csp w'))).1 = Returned.
Proof.
  intros Hsym Hcl Hir E.
  pose proof (bts_sound_aux fuel V D G rs a w' Hsym E) as Hv.
  apply bts_reach in E as [Hr Hf]; [|done].
  destruct (Hf a eq_refl) as [-> Hu].
  pose proof (proj1 (symmetric_on_spec V G) Hsym) as Hsym'.
  pose proof (reach_inv V D G Hsym' _ _ Hr (start_inv V D G rs)) as
    [Hk Hcov Hkn Hval Hdom Hmod Hcons].
  destruct (reach_tables _ _ Hr) as [Ht _]. simpl in Ht.
  destruct (valid_coloring_clean V D G (domains (w_csp w'))
              (neighbors_dict (w_csp w')) (w_assignment w')) as [H1 H2];
    try done.
  - intros k Hin. apply Hkn. by right.
  - unfold check. apply check_complete_Returned in H1. rewrite H1.
    by apply check_items_Returned.
Qed.

Lemma bts_result_passes_check_witness :
  let o := run 4 ["A"; "B"; "C"] ["red"; "blue"] path [0] in
  (check (solution_of o) ["A"; "B"; "C"] (domains (w_csp (world_of o)))
     (neighbors_dict (w_csp (world_of o)))).1 = Returned.
Proof.
  intros o.
  apply (bts_result_passes_check 4 ["A"; "B"; "C"] ["red"; "blue"]
           (list_to_map path) [0]).
  - by_compute.
  - by_compute.
  - by_compute.
  - vm_compute. reflexivity.
Defined.

(** X21.  [check] raises an exception on every assignment that has a
    key whose conflict list contains that key. *)
Theorem check_rejects_self_conflict result countries colors nd k :
  NoDup (dict_keys result) → k ∈ dict_keys result → k ∈ nd !!! k →
  ∃ e, (check result countries colors nd).1 = Raise e.
Proof.
  intros Hnd [v Hk]%dict_keys_get Hself.
  destruct (check result countries colors nd).1 as [|e] eqn:E; [|by exists e].
  apply check_Returned_clean in E as [_ E]. rewrite Forall_forall in E.
  apply dict_get_Some_elem in Hk as Hin.
  destruct (E _ Hin) as (_ & _ & H). simpl in H. rewrite Forall_forall in H.
  by destruct (H k Hself) as [_ Hne].
Qed.

Lemma check_rejects_self_conflict_witness :
  ∃ e, (check [("A", "red")] ["A"] ["red"] (list_to_map [("A", ["A"])])).1
       = Raise e.
Proof.
  apply (check_rejects_self_conflict _ _ _ _ "A"); by_compute.
Defined.

(** * The plotted sequence *)

Lemma color_discrete_sequence_complete colormap cs :
  complete colormap cs →
  ∃ l, color_discrete_sequence colormap cs = inr l
       ∧ Forall2 (λ c v, dict_get c colormap = Some v) cs l.
Proof.
  unfold complete. induction cs as [|c cs IH]; intros H; simpl.
  - exists []. by split.
  - apply Forall_cons in H as [Hc H]. apply dict_keys_get in Hc as [v Hv].
    destruct (IH H) as (l & -> & Hl). rewrite Hv. exists (v :: l).
    split; [done|]. by constructor.
Qed.

(** X22.  The comprehension of [plot_choropleth] raises [KeyError] for
    the first country without an entry, and on a colour map with an entry
    for every country it yields, in the order of the countries, the colour
    of each. *)
Theorem color_discrete_sequence_spec colormap pre c post :
  complete colormap pre →
  (c ∉ dict_keys colormap →
   color_discrete_sequence colormap (pre ++ c :: post) = inl (KeyError c))
  ∧ ∃ l, color_discrete_sequence colormap pre = inr l
         ∧ Forall2 (λ c v, dict_get c colormap = Some v) pre l.
Proof.
  intros Hpre. split; [|by apply color_discrete_sequence_complete].
  intros Hc. unfold complete in Hpre.
  induction pre as [|p pre IH]; simpl.
  - destruct (dict_get c colormap) as [v|] eqn:E; [|done].
    destruct Hc. apply dict_keys_get. by exists v.
  - apply Forall_cons in Hpre as [Hp Hpre].
    apply dict_keys_get in Hp as [v ->]. by rewrite (IH Hpre).
Qed.

Lemma color_discrete_sequence_spec_witness :
  color_discrete_sequence [("A", "red")] (["A"] ++ "B" :: ["A"])
  = inl (KeyError "B").
Proof.
  apply (color_discrete_sequence_spec [("A", "red")] ["A"] "B" ["A"]);
    by_compute.
Defined.

(** * The program as a whole *)

(** X23.  With recursion depth above the number of countries, and
    whatever the random draws, the main block ends in one of two ways: it
    prints [No solution found!], or [check] passes and [plot_choropleth]
    is handed a valid colouring of South America, with the colour sequence
    in the order of [countries].  No exception escapes. *)
Theorem main_plots_valid_coloring_or_reports fuel rs :
  length countries < fuel →
  main fuel rs = Some (Printed "No solution found!")
  ∨ ∃ a sequence,
      main fuel rs = Some (Plotted a sequence)
      ∧ valid_coloring countries colors south_america a
      ∧ Forall2 (λ c v, dict_get c a = Some v) countries sequence.
Proof.
  intros Hf. unfold main.
  assert (NoDup countries) as HV by by_compute.
  assert (symmetric_on countries south_america) as Hsym by by_compute.
  assert (closed_on countries south_america) as Hcl by by_compute.
  assert (irreflexive_on countries south_america) as Hir by by_compute.
  destruct (bts_total fuel countries colors south_america None rs HV Hf)
    as (r & w' & E & Hne).
  rewrite E. destruct r as [a| |e]; [|by left|by destruct (Hne e)].
  right.
  pose proof (bts_sound_aux _ _ _ _ _ _ _ Hsym E) as Hv.
  pose proof E as E'.
  apply bts_reach in E' as [Hr Hfin]; [|done].
  destruct (Hfin a eq_refl) as [-> Hu].
  pose proof (reach_inv _ colors _ (proj1 (symmetric_on_spec _ _) Hsym) _ _ Hr
                (start_inv _ _ _ rs)) as [Hk Hcov Hkn Hval Hdom Hmod Hcons].
  destruct (reach_tables _ _ Hr) as [Ht _]. simpl in Ht.
  destruct (valid_coloring_clean countries colors south_america
              (domains (w_csp w')) (neighbors_dict (w_csp w'))
              (w_assignment w')) as [H1 H2]; try done.
  { intros k Hin. apply Hkn. by right. }
  assert ((check (w_assignment w') countries (domains (w_csp w'))
             (neighbors_dict (w_csp w'))).1 = Returned) as ->.
  { unfold check. pose proof H1 as H1'.
    apply check_complete_Returned in H1'. rewrite H1'.
    by apply check_items_Returned. }
  unfold plot_choropleth.
  destruct (color_discrete_sequence_complete _ _ H1) as (l & -> & Hl).
  by exists (w_assignment w'), l.
Qed.

Lemma main_plots_valid_coloring_or_reports_witness :
  main 14 [3; 1; 4; 1; 5] = Some (Printed "No solution found!")
  ∨ ∃ a sequence,
      main 14 [3; 1; 4; 1; 5] = Some (Plotted a sequence)
      ∧ valid_coloring countries colors south_america a
      ∧ Forall2 (λ c v, dict_get c a = Some v) countries sequence.
Proof.
  apply main_plots_valid_coloring_or_reports. simpl. lia.
Defined.
